(** * Evaluation loops of the RMB repository

    A shallow embedding of

    - [aster/eval_util.py]: [write_metrics], [run_checkpoint_once],
      [repeated_checkpoint_run], [evaluate_recognition_results],
      [visualize_recognition_results];
    - [ctpn-crnn/crnn/predict.py]: [get_images] and the script body.

    Python dictionaries are finite maps ([gmap]), Python integers are [Z],
    and code that raises, catches and logs is written in a small monad
    that threads the local variables, collects the calls made to the
    outside world (TensorFlow, the clock, the file system) as a trace of
    events and ends in a value or in a raised exception. *)

From stdpp Require Import gmap strings list fin_maps sorting.
From Stdlib Require Import ZArith Lia Ascii.

Local Open Scope Z_scope.

(** ** Exceptions and outcomes *)

Inductive exn : Type :=
| ValueError (msg : string)
| TypeError (msg : string)
| KeyError (key : string)
| InvalidArgumentError
| OutOfRangeError
| OtherError (msg : string).

Inductive result (A : Type) : Type :=
| Ok (a : A)
| Raise (e : exn).
Arguments Ok {A} a.
Arguments Raise {A} e.

Definition is_InvalidArgumentError (e : exn) : bool :=
  match e with InvalidArgumentError => true | _ => false end.

Definition is_OutOfRangeError (e : exn) : bool :=
  match e with OutOfRangeError => true | _ => false end.

Definition is_Ok {A} (r : result A) : bool :=
  match r with Ok _ => true | Raise _ => false end.

(** Python truthiness of the values the code tests with [if x] / [not x]. *)
Definition truthy_str (s : option string) : bool :=
  match s with
  | None => false
  | Some s => negb (String.eqb s "")
  end.

Definition truthy_list {A} (l : option (list A)) : bool :=
  match l with
  | None | Some [] => false
  | Some (_ :: _) => true
  end.

Definition truthy_int (n : option Z) : bool :=
  match n with
  | None => false
  | Some n => negb (n =? 0)
  end.

Section EvalUtil.

(** The code never looks inside a tensor handle, a fetched value or a
    metric scalar: they stay abstract. *)
Context {tensor value scalar : Type}.

(** ** Events: the calls made to the outside world, in order *)

Inductive event : Type :=
| Log (fmt : string)
| Session_create
| Run_initializers
| Restore_fn
| Latest_checkpoint (dir : string)
| Saver_restore (checkpoint_file : option string)
| Write_graph (dir : string)
| QueueRunners_enter
| QueueRunners_exit
| Sess_run_batch (batch : nat)
| Batch_processor (batch : nat)
| Sess_run_metrics
| Aggregate (result_lists : gmap string (list value))
| Global_step
| FileWriter_open (summary_dir : string)
| Add_summary (key : string) (v : scalar) (global_step : Z)
| FileWriter_close
| Session_close
| Time_time
| Sleep (secs : Z).

(** ** The monad: local state, trace, exception *)

Definition M (St A : Type) : Type := St → St * list event * result A.

Definition ret {St A} (a : A) : M St A := λ s, (s, [], Ok a).

Definition bind {St A B} (m : M St A) (k : A → M St B) : M St B :=
  λ s,
    match m s with
    | (s1, t1, Ok a) => let '(s2, t2, r) := k a s1 in (s2, t1 ++ t2, r)
    | (s1, t1, Raise e) => (s1, t1, Raise e)
    end.

#[global] Instance M_ret {St} : MRet (M St) := @ret St.
#[global] Instance M_bind {St} : MBind (M St) := λ A B k m, bind m k.

Definition raise {St A} (e : exn) : M St A := λ s, (s, [], Raise e).

(** A call to the outside world: it is recorded, and it returns or raises
    as the world decides. *)
Definition call {St A} (ev : event) (r : result A) : M St A := λ s, (s, [ev], r).

Definition emit {St} (ev : event) : M St unit := call ev (Ok tt).

Definition get {St} : M St St := λ s, (s, [], Ok s).

Definition modify {St} (f : St → St) : M St unit := λ s, (f s, [], Ok tt).

(** A call to a function with local variables of its own: its trace and
    its outcome become those of the caller. *)
Definition subroutine {St A} (run : list event * result A) : M St A :=
  λ s, (s, run.1, run.2).

(** [try: body except E: handler], where [handles] recognises [E]. *)
Definition try_except {St A} (body : M St A) (handles : exn → bool)
    (handler : M St A) : M St A :=
  λ s,
    match body s with
    | (s1, t1, Ok a) => (s1, t1, Ok a)
    | (s1, t1, Raise e) =>
        if handles e
        then let '(s2, t2, r) := handler s1 in (s2, t1 ++ t2, r)
        else (s1, t1, Raise e)
    end.

(** [try: body finally: fin]. The [finally] suite runs on every exit of
    [body]; an exception raised by [fin] replaces a pending one. *)
Definition try_finally {St A} (body : M St A) (fin : M St unit) : M St A :=
  λ s,
    let '(s1, t1, r) := body s in
    match fin s1 with
    | (s2, t2, Ok _) => (s2, t1 ++ t2, r)
    | (s2, t2, Raise e) => (s2, t1 ++ t2, Raise e)
    end.

(** [for x in xs: body x] *)
Fixpoint for_each {St A} (xs : list A) (body : A → M St unit) : M St unit :=
  match xs with
  | [] => ret tt
  | x :: xs' => bind (body x) (λ _, for_each xs' body)
  end.

(** [with tf.contrib.slim.queues.QueueRunners(sess): body]. The context
    manager starts the queue-runner threads on entry and stops them when
    the block is left, normally or by an exception. *)
Definition with_QueueRunners {St A} (body : M St A) : M St A :=
  emit QueueRunners_enter ;; try_finally body (emit QueueRunners_exit).

(** ** Data of one evaluation pass *)

Record counters : Type := Counters { skipped : Z; success : Z }.

Definition incr_success (c : counters) : counters :=
  {| skipped := skipped c; success := success c + 1 |}.

Definition incr_skipped (c : counters) : counters :=
  {| skipped := skipped c + 1; success := success c |}.

(** The local variables of [run_checkpoint_once] that the batch loop and
    the [finally] suite share. *)
Record locals : Type := Locals {
  result_lists : gmap string (list value);
  counts : counters;
  other_metrics : option (gmap string scalar)
}.

Definition set_result_lists (rl : gmap string (list value)) (st : locals) : locals :=
  {| result_lists := rl; counts := counts st; other_metrics := other_metrics st |}.

Definition set_counts (c : counters) (st : locals) : locals :=
  {| result_lists := result_lists st; counts := c; other_metrics := other_metrics st |}.

Definition set_other_metrics (om : option (gmap string scalar)) (st : locals) : locals :=
  {| result_lists := result_lists st; counts := counts st; other_metrics := om |}.

(** What the TensorFlow runtime does during one pass. The calls on which
    the control flow depends return or raise as the runtime decides; the
    others (creating and closing the session, the initialisers,
    [write_graph], the summary writer) are taken to return. *)
Record session_world : Type := SessionWorld {
  (** outcome of [sess.run([tensor_dict, update_op])] for batch [i] *)
  sess_run_batch : nat → result (gmap string value);
  (** outcome of [sess.run(metric_names_to_values)] *)
  sess_run_metrics : result (gmap string scalar);
  (** [tf.train.latest_checkpoint(dir)] *)
  latest_checkpoint : string → option string;
  (** outcome of [saver.restore(sess, checkpoint_file)] *)
  saver_restore : option string → result unit;
  (** [tf.train.global_step(sess, tf.train.get_global_step())] *)
  global_step : Z
}.

(** The arguments of [run_checkpoint_once]. The callbacks see the world
    they are called in; [batch_processor] also receives the batch index
    and the shared [counters] object, which it may update. *)
Record config : Type := Config {
  tensor_dict : gmap string tensor;
  summary_dir : string;
  aggregated_result_processor :
    option (gmap string (list value) → result (gmap string scalar));
  batch_processor :
    option (session_world → nat → counters → counters * result (gmap string value));
  checkpoint_dirs : option (list string);
  restore_fn : option (session_world → result unit);
  num_batches : Z;
  save_graph : bool;
  save_graph_dir : string;
  metric_names_to_values : option (gmap string tensor);
  keys_to_exclude_from_results : list string
}.

(** ** [write_metrics] *)

Definition sorted_items (metrics : gmap string scalar) : list (string * scalar) :=
  merge_sort (λ a b, String.leb a.1 b.1) (map_to_list metrics).

Definition write_metrics {St} (metrics : gmap string scalar) (step : Z)
    (dir : string) : M St unit :=
  emit (Log "Writing metrics to tf summary.") ;;
  emit (FileWriter_open dir) ;;
  for_each (sorted_items metrics)
    (λ kv, emit (Add_summary kv.1 kv.2 step) ;; emit (Log "%s: %f")) ;;
  emit FileWriter_close ;;
  emit (Log "Metrics written to tf summary.").

(** ** [run_checkpoint_once] *)

Section Pass.

Variable cfg : config.
Variable w : session_world.

(** Lines 131-150: argument check, session, initialisers, restore. *)
Definition setup : M unit unit :=
  (if save_graph cfg && String.eqb (save_graph_dir cfg) ""
   then raise (ValueError "`save_graph_dir` must be defined.")
   else ret tt) ;;
  emit Session_create ;;
  emit Run_initializers ;;
  match restore_fn cfg with
  | Some restore => call Restore_fn (restore w)
  | None =>
      match checkpoint_dirs cfg with
      | Some (dir0 :: _) =>
          checkpoint_file ← call (Latest_checkpoint dir0) (Ok (latest_checkpoint w dir0)) ;
          call (Saver_restore checkpoint_file) (saver_restore w checkpoint_file)
      | _ => raise (ValueError "`checkpoint_dirs` must have at least one entry.")
      end
  end ;;
  (if save_graph cfg then emit (Write_graph (save_graph_dir cfg)) else ret tt).

(** Line 152. *)
Definition valid_keys : gset string :=
  dom (tensor_dict cfg) ∖ list_to_set (keys_to_exclude_from_results cfg).

(** Lines 153-155. *)
Definition initial_locals : locals :=
  {| result_lists := gset_to_gmap [] valid_keys;
     counts := {| skipped := 0; success := 0 |};
     other_metrics := None |}.

(** Line 174: [result_lists[key].append(v)]. *)
Definition append_result (key : string) (v : value) : M locals unit :=
  st ← get ;
  match result_lists st !! key with
  | Some l => modify (set_result_lists (<[key := l ++ [v]]> (result_lists st)))
  | None => raise (KeyError key)
  end.

(** Lines 161-171: the result of one batch. *)
Definition run_batch (batch : nat) : M locals (gmap string value) :=
  match batch_processor cfg with
  | None =>
      try_except
        (result_dict ← call (Sess_run_batch batch) (sess_run_batch w batch) ;
         modify (λ st, set_counts (incr_success (counts st)) st) ;;
         ret result_dict)
        is_InvalidArgumentError
        (emit (Log "Skipping image") ;;
         modify (λ st, set_counts (incr_skipped (counts st)) st) ;;
         ret ∅)
  | Some processor =>
      λ st, let '(c, r) := processor w batch (counts st) in
            (set_counts c st, [Batch_processor batch], r)
  end.

(** Lines 159-174: the body of the batch loop. *)
Definition process_batch (batch : nat) : M locals unit :=
  (if (Z.of_nat batch + 1) mod 100 =? 0
   then emit (Log "Running eval ops batch %d/%d")
   else ret tt) ;;
  result_dict ← run_batch batch ;
  for_each (map_to_list result_dict)
    (λ kv, if decide (kv.1 ∈ valid_keys) then append_result kv.1 kv.2 else ret tt).

(** Lines 158-177: the suite of the [try]. *)
Definition evaluate_batches : M locals unit :=
  for_each (seq 0 (Z.to_nat (num_batches cfg))) process_batch ;;
  match metric_names_to_values cfg with
  | Some _ =>
      om ← call Sess_run_metrics (sess_run_metrics w) ;
      modify (set_other_metrics (Some om))
  | None => ret tt
  end ;;
  emit (Log "Running eval batches done.").

(** Line 182: the call [aggregated_result_processor(result_lists)]; the
    argument is [None] unless the caller passes a function. *)
Definition aggregate (rl : gmap string (list value)) : result (gmap string scalar) :=
  match aggregated_result_processor cfg with
  | Some processor => processor rl
  | None => Raise (TypeError "'NoneType' object is not callable")
  end.

(** Lines 182-188: the suite of the [finally]. [metrics.update(other)]
    lets the entries of [other] win. *)
Definition aggregate_and_write : M locals unit :=
  st ← get ;
  metrics ← call (Aggregate (result_lists st)) (aggregate (result_lists st)) ;
  let metrics :=
    match other_metrics st with
    | Some other => other ∪ metrics
    | None => metrics
    end in
  step ← call Global_step (Ok (global_step w)) ;
  write_metrics metrics step (summary_dir cfg) ;;
  emit (Log "# success: %d") ;;
  emit (Log "# skipped: %d").

(** Lines 157-179: the [try] with its [except] clause. *)
Definition batches_until_exhausted : M locals unit :=
  try_except evaluate_batches is_OutOfRangeError
    (emit (Log "Done evaluating -- epoch limit reached")).

(** Lines 156-188: the [with] block. *)
Definition evaluation_block : M locals unit :=
  with_QueueRunners (try_finally batches_until_exhausted aggregate_and_write).

(** The whole function: the final local variables (the initial ones
    when [setup] raises before they are bound), the trace and the
    outcome. *)
Definition run_pass : locals * list event * result unit :=
  match setup tt with
  | (_, t0, Ok _) =>
      match evaluation_block initial_locals with
      | (st, t1, Ok _) => (st, t0 ++ t1 ++ [Session_close], Ok tt)
      | (st, t1, Raise e) => (st, t0 ++ t1, Raise e)
      end
  | (_, t0, Raise e) => (initial_locals, t0, Raise e)
  end.

Definition run_checkpoint_once : list event * result unit :=
  (run_pass.1.2, run_pass.2).

End Pass.

(** ** [repeated_checkpoint_run] *)

(** What the outside world does during one iteration of the polling
    loop: the two readings of [time.time()], the checkpoint found by the
    poll, and the runtime an evaluation pass would meet. Times are
    counted in whole units; the rounding of floating-point seconds is
    not modelled. *)
Record iteration_world : Type := IterationWorld {
  time_at_start : Z;
  polled_checkpoint : option string;
  runtime : session_world;
  time_after_evaluation : Z
}.

(** The local variables of the polling loop. *)
Record poll_state : Type := PollState {
  last_evaluated_model_path : option string;
  number_of_evaluations : Z
}.

Definition set_last_evaluated_model_path (p : option string) (st : poll_state) : poll_state :=
  {| last_evaluated_model_path := p; number_of_evaluations := number_of_evaluations st |}.

Definition incr_number_of_evaluations (st : poll_state) : poll_state :=
  {| last_evaluated_model_path := last_evaluated_model_path st;
     number_of_evaluations := number_of_evaluations st + 1 |}.

(** [limit and p(limit)] for an optional integer: [None] and [0] are
    falsy, so the test is not even made for them. *)
Definition limit_and (limit : option Z) (p : Z → bool) : bool :=
  truthy_int limit && match limit with Some m => p m | None => false end.

Section Polling.

Variable cfg : config.
Variable eval_interval_secs : Z.
Variable max_number_of_evaluations : option Z.

(** Lines 275-301: one turn of [while True]; the value is [true] when
    the loop is left by [break]. *)
Definition poll_iteration (dir0 : string) (iw : iteration_world) : M poll_state bool :=
  start ← call Time_time (Ok (time_at_start iw)) ;
  emit (Log "Starting evaluation at ") ;;
  model_path ← call (Latest_checkpoint dir0) (Ok (polled_checkpoint iw)) ;
  st ← get ;
  (if negb (truthy_str model_path)
   then emit (Log "No model found in %s. Will try again in %d seconds")
   else if decide (model_path = last_evaluated_model_path st)
   then emit (Log "Found already evaluated checkpoint. Will try again in %d seconds")
   else
     modify (set_last_evaluated_model_path model_path) ;;
     subroutine (run_checkpoint_once cfg (runtime iw))) ;;
  modify incr_number_of_evaluations ;;
  st ← get ;
  if limit_and max_number_of_evaluations (λ m, m <=? number_of_evaluations st)
  then emit (Log "Finished evaluation!") ;; ret true
  else
    now ← call Time_time (Ok (time_after_evaluation iw)) ;
    let time_to_next_eval := start + eval_interval_secs - now in
    (if 0 <? time_to_next_eval then emit (Sleep time_to_next_eval) else ret tt) ;;
    ret false.

(** [while True] cannot be a structural recursion: [fuel] bounds the
    number of iterations looked at, and the outcome is [None] when the
    loop is still running after them. Iteration [i] meets [world i]. *)
Fixpoint poll_loop (world : nat → iteration_world) (dir0 : string)
    (fuel : nat) (i : nat) (st : poll_state)
    : poll_state * list event * option (result unit) :=
  match fuel with
  | O => (st, [], None)
  | S fuel' =>
      match poll_iteration dir0 (world i) st with
      | (st1, t1, Ok true) => (st1, t1, Some (Ok tt))
      | (st1, t1, Ok false) =>
          let '(st2, t2, r) := poll_loop world dir0 fuel' (S i) st1 in
          (st2, t1 ++ t2, r)
      | (st1, t1, Raise e) => (st1, t1, Some (Raise e))
      end
  end.

Definition initial_poll_state : poll_state :=
  {| last_evaluated_model_path := None; number_of_evaluations := 0 |}.

Definition repeated_checkpoint_run (world : nat → iteration_world) (fuel : nat)
    : list event * option (result unit) :=
  if limit_and max_number_of_evaluations (λ m, m <=? 0)
  then ([], Some (Raise (ValueError "`number_of_steps` must be either None or a positive number.")))
  else
    match checkpoint_dirs cfg with
    | Some (dir0 :: _) =>
        let '(_, t, r) := poll_loop world dir0 fuel 0 initial_poll_state in (t, r)
    | _ => ([], Some (Raise (ValueError "`checkpoint_dirs` must have at least one entry.")))
    end.

End Polling.

(** ** [evaluate_recognition_results] *)

#[global] Instance result_ret : MRet result := @Ok.
#[global] Instance result_bind : MBind result :=
  λ A B k r, match r with Ok a => k a | Raise e => Raise e end.

Definition expected_keys : list string :=
  ["groundtruth_text"; "recognition_text"; "filename"].

(** [d[key]] *)
Definition getitem {A} (d : gmap string A) (key : string) : result A :=
  match d !! key with
  | Some a => Ok a
  | None => Raise (KeyError key)
  end.

(** [l[idx]] *)
Definition index {A} (l : list A) (idx : nat) : result A :=
  match l !! idx with
  | Some a => Ok a
  | None => Raise (OtherError "IndexError: list index out of range")
  end.

(** Lines 312-314. *)
Fixpoint check_list_sizes (rl : gmap string (list value)) (num_results : nat)
    (keys : list string) : result unit :=
  match keys with
  | [] => Ok tt
  | key :: keys' =>
      l ← getitem rl key ;
      if negb (length l =? num_results)%nat
      then Raise (ValueError "Inconsistent list sizes in result_lists")
      else check_list_sizes rl num_results keys'
  end.

(** Lines 317-321: what is handed to the evaluator, image by image. *)
Fixpoint recognition_infos (rl : gmap string (list value)) (idx : nat)
    (filenames : list value) : result (list (value * value * value)) :=
  match filenames with
  | [] => Ok []
  | image_id :: rest =>
      recognition ← getitem rl "recognition_text" ;
      text ← index recognition idx ;
      groundtruth ← getitem rl "groundtruth_text" ;
      gt ← index groundtruth idx ;
      infos ← recognition_infos rl (S idx) rest ;
      Ok ((image_id, text, gt) :: infos)
  end.

(** [recognition_evaluation.RecognitionEvaluation] is not part of the
    sources at hand: [evaluate_all] stands for the metrics it computes
    from the images added to it. *)
Definition evaluate_recognition_results
    (evaluate_all : list (value * value * value) → result (gmap string scalar))
    (rl : gmap string (list value)) : result (gmap string scalar) :=
  if negb (bool_decide (list_to_set expected_keys ⊆ dom rl))
  then Raise (ValueError "result_lists does not have expected key set.")
  else
    first ← getitem rl "groundtruth_text" ;
    let num_results := length first in
    check_list_sizes rl num_results expected_keys ;;
    filenames ← getitem rl "filename" ;
    infos ← recognition_infos rl 0 filenames ;
    evaluate_all infos.

End EvalUtil.

Arguments run_checkpoint_once : simpl never.
Arguments repeated_checkpoint_run : simpl never.

(** * The CRNN predictor, [ctpn-crnn/crnn/predict.py] *)

(** ** Paths and directories *)

Definition slash : ascii := "/"%char.

(** The line end the script writes, [\r\n]. *)
Definition CRLF : string := String "013"%char (String "010"%char EmptyString).

Fixpoint has_slash (s : string) : bool :=
  match s with
  | EmptyString => false
  | String c rest => Ascii.eqb c slash || has_slash rest
  end.

(** [s.endswith(suffix)]: the last [len(suffix)] characters of [s] are
    compared with [suffix]. *)
Definition endswith (s suffix : string) : bool :=
  (String.length suffix <=? String.length s)%nat &&
  String.eqb (String.substring (String.length s - String.length suffix) (String.length suffix) s) suffix.

Definition startswith_slash (s : string) : bool :=
  match s with
  | String c _ => Ascii.eqb c slash
  | EmptyString => false
  end.

(** [os.path.join(a, b)] on POSIX. *)
Definition path_join (a b : string) : string :=
  if startswith_slash b then b
  else if String.eqb a "" || endswith a "/" then a +:+ b
  else a +:+ "/" +:+ b.

(** [os.path.basename(p)]: what follows the last slash. *)
Fixpoint basename (p : string) : string :=
  match p with
  | EmptyString => EmptyString
  | String c rest =>
      if has_slash rest then basename rest
      else if Ascii.eqb c slash then rest
      else p
  end.

(** A directory: the names of its files and its sub-directories. *)
#[warnings="-register-all"]
Inductive directory : Type :=
| Directory (filenames : list string) (subdirs : list (string * directory)).

(** [os.walk(top)], top-down: the directory itself, then each
    sub-directory in turn. Each item is [(dirpath, dirnames, filenames)]. *)
Fixpoint os_walk (top : string) (d : directory)
    : list (string * list string * list string) :=
  match d with
  | Directory filenames subdirs =>
      (top, map fst subdirs, filenames)
      :: flat_map (λ sub, os_walk (path_join top sub.1) sub.2) subdirs
  end.

(** ** [get_images] *)

Definition exts : list string := ["jpg"; "png"; "jpeg"; "JPG"].

(** Lines 38-41: the loop over [exts], left by [break] at the first
    match. *)
Fixpoint append_if_image (parent filename : string) (exts : list string)
    (files : list string) : list string :=
  match exts with
  | [] => files
  | ext :: exts' =>
      if endswith filename ext
      then files ++ [path_join parent filename]
      else append_if_image parent filename exts' files
  end.

(** Lines 34-43, with [FLAGS.test_data_path] as [top]. *)
Definition get_images (top : string) (d : directory) : list string :=
  foldl
    (λ files item,
       foldl (λ files filename, append_if_image item.1.1 filename exts files)
         files item.2)
    [] (os_walk top d).

(** ** The script body *)

(** The output file is its contents. [open(path, "a")] keeps what a file
    already holds and creates an empty one otherwise; every write goes to
    the end. *)
Definition open_append (existing : option string) : string :=
  default EmptyString existing.

(** [f.writelines(s)] for a string [s] writes its characters one by one. *)
Definition writelines (f : string) (s : string) : string :=
  foldl (λ f c, f +:+ String c EmptyString) f (String.list_ascii_of_string s).

Definition title : string := "name,label" +:+ CRLF.

(** Lines 94-102. [recognize im_fn] is the outcome of [Image.open(im_fn)]
    followed by [crnn_recognition(image, model)]; when it raises, the
    [with] block closes the file and the exception leaves the script. *)
Fixpoint write_rows (recognize : string → result string) (f : string)
    (im_fn_list : list string) : string * result unit :=
  match im_fn_list with
  | [] => (f, Ok tt)
  | im_fn :: rest =>
      match recognize im_fn with
      | Ok label =>
          let line := basename im_fn in
          let line := line +:+ "," +:+ label +:+ CRLF in
          write_rows recognize (writelines f line) rest
      | Raise e => (f, Raise e)
      end
  end.

(** Lines 89-102: from the directory under [FLAGS.test_data_path] and the
    contents of the CSV file before the run (if it exists) to its contents
    after the run. What the script prints on the terminal is left out. *)
Definition predict_main (top : string) (d : directory)
    (recognize : string → result string) (csv : option string)
    : string * result unit :=
  let im_fn_list := get_images top d in
  let f := open_append csv in
  let f := writelines f title in
  write_rows recognize f im_fn_list.

(** ** Vocabulary for the predictor *)





(** One line of the CSV file. *)
Definition row (name label : string) : string :=
  name +:+ "," +:+ label +:+ CRLF.

(** The rows written for a list of images: one per image, up to the
    first image, if any, on which inference raises. *)
Fixpoint rows_written (recognize : string → result string)
    (im_fn_list : list string) : string :=
  match im_fn_list with
  | [] => EmptyString
  | im_fn :: rest =>
      match recognize im_fn with
      | Ok label => row (basename im_fn) label +:+ rows_written recognize rest
      | Raise _ => EmptyString
      end
  end.



(** * Vocabulary for the properties *)

Section Traces.

Context {value scalar : Type}.
Local Abbreviation event := (@event value scalar).

(** The events of each part of an evaluation pass. *)
Definition pass_log (fmt : string) : bool :=
  negb (String.eqb fmt "Starting evaluation at ").

Definition setup_event (e : event) : bool :=
  match e with
  | Session_create | Run_initializers | Restore_fn | Latest_checkpoint _
  | Saver_restore _ | Write_graph _ => true
  | _ => false
  end.

Definition batch_event (e : event) : bool :=
  match e with
  | Log fmt => pass_log fmt
  | Sess_run_batch _ | Batch_processor _ | Sess_run_metrics => true
  | _ => false
  end.

Definition report_event (e : event) : bool :=
  match e with
  | Log fmt => pass_log fmt
  | Aggregate _ | Global_step | FileWriter_open _ | Add_summary _ _ _
  | FileWriter_close => true
  | _ => false
  end.

(** The events that write to the summary log. *)
Definition summary_event (e : event) : bool :=
  match e with
  | FileWriter_open _ | Add_summary _ _ _ | FileWriter_close => true
  | _ => false
  end.

(** [emits P m]: whatever the local state, [m] only makes calls
    accepted by [P]. *)
Definition emits {St A} (P : event → bool) (m : M St A) : Prop :=
  ∀ s, Forall (λ e, P e = true) (m s).1.2.

(** Every hundredth batch is announced in the log. *)
Definition progress (batch : nat) : list event :=
  if (Z.of_nat batch + 1) mod 100 =? 0
  then [Log "Running eval ops batch %d/%d"]
  else [].

(** What [metrics.update(other_metrics)] leaves in [metrics]. *)
Definition merged_metrics (other : option (gmap string scalar))
    (metrics : gmap string scalar) : gmap string scalar :=
  match other with
  | Some other => other ∪ metrics
  | None => metrics
  end.

(** The result lists once the results of one batch have been appended:
    every list of a valid key the batch has a value for grows by that
    value. *)
Definition appended (valid : gset string) (result_dict : gmap string value)
    (rl : gmap string (list value)) : gmap string (list value) :=
  map_imap
    (λ key l,
       Some match result_dict !! key with
            | Some v => if decide (key ∈ valid) then l ++ [v] else l
            | None => l
            end)
    rl.



(** The batches for which [sess.run] was called, in order. *)
Definition batches_run (t : list event) : list nat :=
  omap (λ e, match e with Sess_run_batch batch => Some batch | _ => None end) t.

(** A mapping lacks one of the fields the recognition metrics need, or
    holds two of them with sequences of different lengths. *)
Definition lacks_expected_key (rl : gmap string (list value)) : Prop :=
  ∃ key, key ∈ expected_keys ∧ rl !! key = None.

Definition unequal_sizes (rl : gmap string (list value)) : Prop :=
  ∃ key1 key2 l1 l2,
    key1 ∈ expected_keys ∧ key2 ∈ expected_keys ∧
    rl !! key1 = Some l1 ∧ rl !! key2 = Some l2 ∧ length l1 ≠ length l2.

(** The trace of [write_metrics]. *)
Definition write_metrics_trace (metrics : gmap string scalar) (step : Z)
    (dir : string) : list event :=
  [Log "Writing metrics to tf summary."; FileWriter_open dir]
  ++ flat_map (λ kv, [Add_summary kv.1 kv.2 step; Log "%s: %f"]) (sorted_items metrics)
  ++ [FileWriter_close; Log "Metrics written to tf summary."].

(** The events that only an evaluation pass gives rise to: everything
    but the log, the polls and the clock. *)
Definition evaluation_event (e : event) : bool :=
  match e with
  | Log _ | Latest_checkpoint _ | Time_time | Sleep _ => false
  | _ => true
  end.

(** The part of a trace that is evaluation work. *)
Definition evaluation_events (t : list event) : list event :=
  List.filter evaluation_event t.

(** The events of a whole pass. *)
Definition pass_event (e : event) : bool :=
  setup_event e || batch_event e || report_event e ||
  match e with
  | QueueRunners_enter | QueueRunners_exit | Session_close => true
  | _ => false
  end.

(** How many events of a trace satisfy [P]. *)
Fixpoint count (P : event → bool) (t : list event) : nat :=
  match t with
  | [] => 0
  | e :: t' => (if P e then 1 else 0) + count P t'
  end.

Definition is_Session_create (e : event) : bool :=
  match e with Session_create => true | _ => false end.

Definition is_iteration_start (e : event) : bool :=
  match e with Log fmt => String.eqb fmt "Starting evaluation at " | _ => false end.

(** Every pass that gets past its argument check creates one session,
    and every iteration of the polling loop logs its start once. *)
Definition passes_run (t : list event) : nat := count is_Session_create t.
Definition iterations_run (t : list event) : nat := count is_iteration_start t.

(** The durations slept, in order. *)
Definition sleeps (t : list event) : list Z :=
  omap (λ e, match e with Sleep secs => Some secs | _ => None end) t.

End Traces.

(** The time left in the interval when iteration [iw] has done its
    work, and the pause it gives rise to. *)
Definition time_to_next_eval {value scalar} (eval_interval_secs : Z)
    (iw : @iteration_world value scalar) : Z :=
  time_at_start iw + eval_interval_secs - time_after_evaluation iw.

Definition pause (remaining : Z) : list Z :=
  if 0 <? remaining then [remaining] else [].

(** The events with which every iteration of the polling loop starts. *)
Definition poll_prefix {value scalar} (dir0 : string) : list (@event value scalar) :=
  [Time_time; Log "Starting evaluation at "; Latest_checkpoint dir0].

(** The end of an iteration that has counted [n] evaluations: the events
    and whether the loop is left. *)
Definition iteration_end {value scalar} (eval_interval_secs : Z) (limit : option Z)
    (iw : @iteration_world value scalar) (n : Z) : list (@event value scalar) * bool :=
  if limit_and limit (λ m, m <=? n)
  then ([Log "Finished evaluation!"], true)
  else (Time_time :: (Sleep <$> pause (time_to_next_eval eval_interval_secs iw)), false).


(** Whether an iteration that polls [path] runs an evaluation pass. *)
Definition evaluates (path last_evaluated : option string) : bool :=
  truthy_str path && negb (bool_decide (path = last_evaluated)).

(** The outcome of [try: ... finally: ...] from the outcome [r1] of the
    [try] part and the outcome [r2] of the [finally] suite. *)
Definition finally_outcome {A} (r1 : result A) (r2 : result unit) : result A :=
  match r2 with
  | Ok _ => r1
  | Raise e => Raise e
  end.

Section PassShape.

Context {tensor value scalar : Type}.
Local Abbreviation event := (@event value scalar).

(** What follows the [with] block: [sess.close()] is reached only when
    the block is left normally. *)
Definition closing (r : result unit) : list event :=
  if is_Ok r then [Session_close] else [].

(** The two ways a call of [run_checkpoint_once] can go: [setup] raises,
    or the [with] block runs: batches, then the [finally] suite. *)
Inductive pass_shape (cfg : @config tensor value scalar) (w : session_world)
    : list event → result unit → Prop :=
| Setup_raised t0 e :
    setup cfg w tt = (tt, t0, Raise e) →
    pass_shape cfg w t0 (Raise e)
| Block_ran t0 st1 t1 r1 st2 t2 r2 :
    setup cfg w tt = (tt, t0, Ok tt) →
    batches_until_exhausted cfg w (initial_locals cfg) = (st1, t1, r1) →
    aggregate_and_write cfg w st1 = (st2, t2, r2) →
    pass_shape cfg w
      (t0 ++ [QueueRunners_enter] ++ t1 ++ t2 ++ [QueueRunners_exit]
          ++ closing (finally_outcome r1 r2))
      (finally_outcome r1 r2).

End PassShape.

(** * Example inputs

    Tensors are left without content, fetched values are byte strings
    and metric values are integers. *)

Definition recognition_tensors : gmap string unit :=
  {[ "groundtruth_text" := tt; "recognition_text" := tt; "filename" := tt;
     "image" := tt ]}.

Definition recognition_batch (name text truth : string) : gmap string string :=
  {[ "groundtruth_text" := truth; "recognition_text" := text; "filename" := name;
     "image" := "pixels" ]}.

(** The number of images the evaluator was given, as the only metric. *)
Definition count_images (infos : list (string * string * string))
    : result (gmap string Z) :=
  Ok {[ "count" := Z.of_nat (length infos) ]}.

(** Five batches are asked for; the second image is malformed and the
    input queue is empty after three. *)
Definition example_runtime : @session_world string Z :=
  {| sess_run_batch := λ i,
       match i with
       | 0%nat => Ok (recognition_batch "a.png" "cat" "cat")
       | 1%nat => Raise InvalidArgumentError
       | 2%nat => Ok (recognition_batch "c.png" "cat" "bird")
       | _ => Raise OutOfRangeError
       end;
     sess_run_metrics := Ok ∅;
     latest_checkpoint := λ _, Some "model.ckpt-100";
     saver_restore := λ _, Ok tt;
     global_step := 100 |}.


Definition example_config : @config unit string Z :=
  {| tensor_dict := recognition_tensors;
     summary_dir := "eval";
     aggregated_result_processor := Some (evaluate_recognition_results count_images);
     batch_processor := None;
     checkpoint_dirs := Some ["train"];
     restore_fn := None;
     num_batches := 5;
     save_graph := false;
     save_graph_dir := "";
     metric_names_to_values := None;
     keys_to_exclude_from_results := ["image"] |}.

(** The polls find no checkpoint, then one checkpoint twice, then a
    newer one; every poll starts 1000 seconds after the previous one and
    the work of iteration [i] takes [50 * i] seconds. *)
Definition example_world (i : nat) : @iteration_world string Z :=
  {| time_at_start := 1000 * Z.of_nat i;
     polled_checkpoint :=
       match i with
       | 0%nat => None
       | 1%nat | 2%nat => Some "model.ckpt-100"
       | _ => Some "model.ckpt-200"
       end;
     runtime := example_runtime;
     time_after_evaluation := 1000 * Z.of_nat i + 50 * Z.of_nat i |}.

(** The same pass, with [filename] kept out of the results: the
    aggregation function raises. *)
Definition example_config_no_filename : @config unit string Z :=
  {| tensor_dict := recognition_tensors;
     summary_dir := "eval";
     aggregated_result_processor := Some (evaluate_recognition_results count_images);
     batch_processor := None;
     checkpoint_dirs := Some ["train"];
     restore_fn := None;
     num_batches := 5;
     save_graph := false;
     save_graph_dir := "";
     metric_names_to_values := None;
     keys_to_exclude_from_results := ["image"; "filename"] |}.

(** No checkpoint directory and no restore function. *)
Definition example_config_no_checkpoint_dirs : @config unit string Z :=
  {| tensor_dict := recognition_tensors;
     summary_dir := "eval";
     aggregated_result_processor := Some (evaluate_recognition_results count_images);
     batch_processor := None;
     checkpoint_dirs := None;
     restore_fn := None;
     num_batches := 5;
     save_graph := false;
     save_graph_dir := "";
     metric_names_to_values := None;
     keys_to_exclude_from_results := ["image"] |}.

(** * Further vocabulary *)

Section MoreTraces.

Context {tensor value scalar : Type}.
Local Abbreviation event := (@event value scalar).

(** The metrics written to the summary log, in order: tag, value and
    step of every [add_summary]. *)
Definition summaries_written (t : list event) : list (string * scalar * Z) :=
  omap (λ e, match e with
             | Add_summary key v step => Some (key, v, step)
             | _ => None
             end) t.

Definition is_FileWriter_open (e : event) : bool :=
  match e with FileWriter_open _ => true | _ => false end.

Definition is_FileWriter_close (e : event) : bool :=
  match e with FileWriter_close => true | _ => false end.

Definition is_Sess_run_metrics (e : event) : bool :=
  match e with Sess_run_metrics => true | _ => false end.

(** The events of the batch loop proper. *)
Definition loop_event (e : event) : bool :=
  match e with
  | Log _ | Sess_run_batch _ | Batch_processor _ => true
  | _ => false
  end.

(** The same arguments with another list of checkpoint directories. *)
Definition with_checkpoint_dirs (dirs : option (list string))
    (cfg : @config tensor value scalar) : @config tensor value scalar :=
  {| tensor_dict := tensor_dict cfg;
     summary_dir := summary_dir cfg;
     aggregated_result_processor := aggregated_result_processor cfg;
     batch_processor := batch_processor cfg;
     checkpoint_dirs := dirs;
     restore_fn := restore_fn cfg;
     num_batches := num_batches cfg;
     save_graph := save_graph cfg;
     save_graph_dir := save_graph_dir cfg;
     metric_names_to_values := metric_names_to_values cfg;
     keys_to_exclude_from_results := keys_to_exclude_from_results cfg |}.

End MoreTraces.

(** The order of [sorted(metrics)], on the items. *)
Definition key_le {A} (a b : string * A) : Prop := String.le a.1 b.1.

(** The calls of a pass that read a checkpoint directory. *)
Definition reads_checkpoint_dir {value scalar} (e : @event value scalar) : bool :=
  match e with
  | Latest_checkpoint _ | Saver_restore _ => true
  | _ => false
  end.

(** * Exporting a visualization, [aster/eval_util.py] *)

(** ** [_normalize_text] *)

(** [string.digits] and [string.ascii_letters]. *)
Definition digits : string := "0123456789".
Definition ascii_lowercase : string := "abcdefghijklmnopqrstuvwxyz".
Definition ascii_uppercase : string := "ABCDEFGHIJKLMNOPQRSTUVWXYZ".
Definition ascii_letters : string := ascii_lowercase +:+ ascii_uppercase.

(** [x in s] for a character [x]. *)
Definition char_in (x : ascii) (s : string) : bool :=
  existsb (Ascii.eqb x) (String.list_ascii_of_string s).

(** [''.join(filter(keep, text))] *)
Fixpoint filter_chars (keep : ascii → bool) (text : string) : string :=
  match text with
  | EmptyString => EmptyString
  | String c rest =>
      if keep c then String c (filter_chars keep rest) else filter_chars keep rest
  end.

(** [str.lower] on the characters [A] to [Z]; the text it is applied to
    holds digits and ASCII letters only. *)
Definition lower_char (c : ascii) : ascii :=
  if char_in c ascii_uppercase
  then Ascii.ascii_of_nat (Ascii.nat_of_ascii c + 32)
  else c.

Fixpoint lower (text : string) : string :=
  match text with
  | EmptyString => EmptyString
  | String c rest => String (lower_char c) (lower rest)
  end.

(** Lines 358-360. *)
Definition _normalize_text (text : string) : string :=
  let text := filter_chars (λ x, char_in x (digits +:+ ascii_letters)) text in
  lower text.

(** ** [visualize_recognition_results] *)

Section Visualize.

(** Image arrays and point arrays are not looked into. *)
Context {array : Type}.

(** The keys of [result_dict] the function reads; [None] is a key the
    dictionary does not hold. The two texts are byte strings. *)
Record recognition_result : Type := RecognitionResult {
  original_image : option array;
  control_points : option array;
  groundtruth_text : option string;
  recognition_text : option string;
  rectified_images : option array
}.

(** The calls to matplotlib, scipy and the file system, in order. *)
Inductive vis_event : Type :=
| Import_imresize
| Plt_figure
| Imresize
| Imshow
| Scatter
| Path_exists (path : string)
| Makedirs (path : string)
| Savefig (save_path : string)
| Vis_log (msg : string)
| Draw_rectified
| Plt_close.

(** What these calls do: each returns or raises as the world decides. *)
Record vis_world : Type := VisWorld {
  (** line 331: [from scipy.misc import imresize] *)
  import_imresize : result unit;
  (** lines 341-344: the figure and its axes *)
  plt_figure : result unit;
  (** lines 347-348: [image.shape] and [imresize(image, 128. / image_w)] *)
  imresize : array → result array;
  (** lines 350-352: the two calls of [ax.imshow] *)
  imshow : array → result unit;
  (** lines 355-356: [control_points[0]] and [ax.scatter] *)
  scatter : array → result unit;
  (** [bytes.decode('utf-8')] *)
  decode : string → result string;
  (** [os.path.exists] *)
  path_exists : string → bool;
  (** [os.makedirs] *)
  makedirs : string → result unit;
  (** [plt.savefig(save_path, bbox_inches='tight')] *)
  savefig : string → result unit;
  (** lines 382-386: [rectified_images[0]], its rescaling, [ax.clear],
      [ax.set_axis_off] and [ax.imshow] *)
  draw_rectified : array → result unit
}.

(** The trace of calls and the outcome. *)
Definition V (A : Type) : Type := list vis_event * result A.

#[global] Instance V_ret : MRet V := λ A a, ([], Ok a).
#[global] Instance V_bind : MBind V :=
  λ A B k m,
    match m with
    | (t1, Ok a) => let '(t2, r) := k a in (t1 ++ t2, r)
    | (t1, Raise e) => (t1, Raise e)
    end.

Definition vcall {A} (ev : vis_event) (r : result A) : V A := ([ev], r).

Definition vraise {A} (e : exn) : V A := ([], Raise e).

(** [result_dict[key]] *)
Definition field {A} (key : string) (v : option A) : V A :=
  match v with
  | Some a => mret a
  | None => vraise (KeyError key)
  end.

Variable w : vis_world.

(** Lines 375-391: what follows the early [return]. [export_dir] is
    [None] unless the caller passes a directory, and [os.path.exists]
    does not take [None]. *)
Definition export (rd : recognition_result) (tag : string)
    (export_dir : option string) (gt_text rec_text : string) : V unit :=
  dir ← match export_dir with
        | Some dir => mret dir
        | None => vraise (TypeError "stat: path should be string, bytes, os.PathLike or integer, not NoneType")
        end ;
  found ← vcall (Path_exists dir) (Ok (path_exists w dir)) ;
  (if negb found then vcall (Makedirs dir) (makedirs w dir) else mret tt) ;;
  let save_path :=
    path_join dir (tag +:+ ("_original_" +:+ gt_text +:+ "_" +:+ rec_text) +:+ ".pdf") in
  vcall (Savefig save_path) (savefig w save_path) ;;
  vcall (Vis_log ("Detailed visualization exported to " +:+ save_path)) (Ok tt) ;;
  match rectified_images rd with
  | Some images =>
      vcall Draw_rectified (draw_rectified w images) ;;
      let save_path := path_join dir (tag +:+ "_rectified" +:+ ".pdf") in
      vcall (Savefig save_path) (savefig w save_path) ;;
      vcall (Vis_log ("Detailed visualization exported to " +:+ save_path)) (Ok tt)
  | None => mret tt
  end ;;
  vcall Plt_close (Ok tt).

(** Lines 325-391. The arguments [global_step], [summary_dir] and
    [summary_writer] are not used by the body. *)
Definition visualize_recognition_results (rd : recognition_result) (tag : string)
    (export_dir : option string) (only_visualize_incorrect : bool) : V unit :=
  vcall Import_imresize (import_imresize w) ;;
  vcall Plt_figure (plt_figure w) ;;
  image ← field "original_image" (original_image rd) ;
  image ← vcall Imresize (imresize w image) ;
  vcall Imshow (imshow w image) ;;
  match control_points rd with
  | Some points => vcall Scatter (scatter w points)
  | None => mret tt
  end ;;
  gt ← field "groundtruth_text" (groundtruth_text rd) ;
  gt ← ([], decode w gt) ;
  let gt_text := _normalize_text gt in
  rc ← field "recognition_text" (recognition_text rd) ;
  rc ← ([], decode w rc) ;
  let rec_text := _normalize_text rc in
  if only_visualize_incorrect && String.eqb gt_text rec_text
  then mret tt
  else export rd tag export_dir gt_text rec_text.

End Visualize.

(** The paths handed to [plt.savefig], and the calls that look at or
    change the file system. *)
Definition saved_paths (t : list vis_event) : list string :=
  omap (λ e, match e with Savefig p => Some p | _ => None end) t.

Definition touches_disk (e : vis_event) : bool :=
  match e with Path_exists _ | Makedirs _ | Savefig _ => true | _ => false end.



(** * Further example inputs *)

(** A caller that restores the variables itself and names no
    checkpoint directory. *)
Definition example_config_restore_fn : @config unit string Z :=
  {| tensor_dict := recognition_tensors;
     summary_dir := "eval";
     aggregated_result_processor := Some (evaluate_recognition_results count_images);
     batch_processor := None;
     checkpoint_dirs := None;
     restore_fn := Some (λ _, Ok tt);
     num_batches := 5;
     save_graph := false;
     save_graph_dir := "";
     metric_names_to_values := None;
     keys_to_exclude_from_results := ["image"] |}.

(** The graph is to be saved, and no directory is given for it. *)
Definition example_config_save_graph : @config unit string Z :=
  {| tensor_dict := recognition_tensors;
     summary_dir := "eval";
     aggregated_result_processor := Some (evaluate_recognition_results count_images);
     batch_processor := None;
     checkpoint_dirs := Some ["train"];
     restore_fn := None;
     num_batches := 5;
     save_graph := true;
     save_graph_dir := "";
     metric_names_to_values := None;
     keys_to_exclude_from_results := ["image"] |}.

(** A runtime that finds no checkpoint to restore. *)
Definition example_runtime_no_checkpoint : @session_world string Z :=
  {| sess_run_batch := λ _, Ok (recognition_batch "a.png" "cat" "cat");
     sess_run_metrics := Ok ∅;
     latest_checkpoint := λ _, None;
     saver_restore := λ checkpoint_file,
       match checkpoint_file with
       | Some _ => Ok tt
       | None => Raise (ValueError "Can't load save_path when it is None.")
       end;
     global_step := 0 |}.

(** A runtime whose third batch cannot be read. *)
Definition example_runtime_data_loss : @session_world string Z :=
  {| sess_run_batch := λ i,
       match i with
       | 0%nat => Ok (recognition_batch "a.png" "cat" "cat")
       | 1%nat => Raise InvalidArgumentError
       | _ => Raise (OtherError "DataLossError")
       end;
     sess_run_metrics := Ok ∅;
     latest_checkpoint := λ _, Some "model.ckpt-100";
     saver_restore := λ _, Ok tt;
     global_step := 100 |}.

(** Two supplementary metrics, one of which has the name of the metric
    the aggregation computes. *)
Definition example_config_with_metrics : @config unit string Z :=
  {| tensor_dict := recognition_tensors;
     summary_dir := "eval";
     aggregated_result_processor := Some (evaluate_recognition_results count_images);
     batch_processor := None;
     checkpoint_dirs := Some ["train"];
     restore_fn := None;
     num_batches := 5;
     save_graph := false;
     save_graph_dir := "";
     metric_names_to_values := Some {[ "count" := tt; "loss" := tt ]};
     keys_to_exclude_from_results := ["image"] |}.

Definition example_runtime_with_metrics : @session_world string Z :=
  {| sess_run_batch := λ i,
       match i with
       | 1%nat => Raise InvalidArgumentError
       | _ => Ok (recognition_batch "a.png" "cat" "cat")
       end;
     sess_run_metrics := Ok {[ "count" := 1000; "loss" := 7 ]};
     latest_checkpoint := λ _, Some "model.ckpt-100";
     saver_restore := λ _, Ok tt;
     global_step := 100 |}.

(** The polls of [example_world], but the newer checkpoint, found by the
    fourth poll, cannot be restored. *)
Definition example_world_failing (i : nat) : @iteration_world string Z :=
  {| time_at_start := time_at_start (example_world i);
     polled_checkpoint := polled_checkpoint (example_world i);
     runtime :=
       match i with
       | 0%nat | 1%nat | 2%nat => example_runtime
       | _ => example_runtime_no_checkpoint
       end;
     time_after_evaluation := time_after_evaluation (example_world i) |}.

(** Result lists of two images, with a field the evaluation does not
    ask for. *)
Definition example_result_lists : gmap string (list string) :=
  {[ "filename" := ["a.png"; "c.png"];
     "recognition_text" := ["cat"; "cat"];
     "groundtruth_text" := ["cat"; "bird"];
     "rectified_images" := ["pixels"; "pixels"] ]}.

(** The result lists at the end of the pass of [example_config] in
    [example_runtime]. *)
Definition example_pass_result_lists : gmap string (list string) :=
  {[ "filename" := ["a.png"; "c.png"];
     "recognition_text" := ["cat"; "cat"];
     "groundtruth_text" := ["cat"; "bird"] ]}.


(** A recognition that differs from its ground truth in case and
    punctuation only, in a world in which every call returns. *)
Definition example_recognition_result : @recognition_result unit :=
  {| original_image := Some tt;
     control_points := None;
     groundtruth_text := Some "Hello, World!";
     recognition_text := Some "helloworld";
     rectified_images := Some tt |}.

Definition example_vis_world : @vis_world unit :=
  {| import_imresize := Ok tt;
     plt_figure := Ok tt;
     imresize := λ image, Ok image;
     imshow := λ _, Ok tt;
     scatter := λ _, Ok tt;
     decode := λ text, Ok text;
     path_exists := λ _, false;
     makedirs := λ _, Ok tt;
     savefig := λ _, Ok tt;
     draw_rectified := λ _, Ok tt |}.

(** * Properties of the evaluation loop *)

Section MonadFacts.

Context {value scalar : Type}.
Local Abbreviation event := (@event value scalar).
Local Abbreviation M := (@M value scalar).

Implicit Types P : event → bool.

Lemma bind_run {St A B} (m : M St A) (k : A → M St B) s :
  (m ≫= k) s =
  match m s return St * list event * result B with
  | (s1, t1, Ok a) => let '(s2, t2, r) := k a s1 in (s2, t1 ++ t2, r)
  | (s1, t1, Raise e) => (s1, t1, Raise e)
  end.
Proof. reflexivity. Qed.

Lemma emits_ret {St A} P (a : A) : emits P (mret a : M St A).
Proof. intros s. constructor. Qed.

Lemma emits_raise {St A} P e : emits P (raise e : M St A).
Proof. intros s. constructor. Qed.

Lemma emits_get {St} P : emits P (get : M St St).
Proof. intros s. constructor. Qed.

Lemma emits_modify {St} P (f : St → St) : emits P (modify f).
Proof. intros s. constructor. Qed.

Lemma emits_call {St A} P ev (r : result A) :
  P ev = true → emits P (call ev r : M St A).
Proof. intros H s. by repeat constructor. Qed.

Lemma emits_emit {St} P ev : P ev = true → emits P (emit ev : M St unit).
Proof. apply emits_call. Qed.

Lemma emits_bind {St A B} P (m : M St A) (k : A → M St B) :
  emits P m → (∀ a, emits P (k a)) → emits P (m ≫= k).
Proof.
  intros Hm Hk s. rewrite bind_run. specialize (Hm s).
  destruct (m s) as [[s1 t1] [a|e]]; simpl in *; [|done].
  specialize (Hk a s1). destruct (k a s1) as [[s2 t2] r]; simpl in *.
  by apply Forall_app.
Qed.

Lemma emits_try_except {St A} P (body handler : M St A) handles :
  emits P body → emits P handler → emits P (try_except body handles handler).
Proof.
  intros Hb Hh s. unfold try_except. specialize (Hb s).
  destruct (body s) as [[s1 t1] [a|e]]; simpl in *; [done|].
  destruct (handles e); [|done].
  specialize (Hh s1). destruct (handler s1) as [[s2 t2] r]; simpl in *.
  by apply Forall_app.
Qed.

Lemma emits_try_finally {St A} P (body : M St A) fin :
  emits P body → emits P fin → emits P (try_finally body fin).
Proof.
  intros Hb Hf s. unfold try_finally. specialize (Hb s).
  destruct (body s) as [[s1 t1] r]; simpl in *.
  specialize (Hf s1). destruct (fin s1) as [[s2 t2] [[]|e]]; simpl in *;
    by apply Forall_app.
Qed.

Lemma emits_for_each {St A} P (xs : list A) (body : A → M St unit) :
  (∀ x, emits P (body x)) → emits P (for_each xs body).
Proof.
  intros Hb. induction xs as [|x xs IH]; simpl.
  - apply emits_ret.
  - apply (emits_bind P (body x) (λ _, for_each xs body)); auto.
Qed.

(** Running a loop over a concatenation: the first part, then the second. *)
Lemma for_each_app {St A} (xs ys : list A) (body : A → M St unit) s :
  for_each (xs ++ ys) body s =
  match for_each xs body s return St * list event * result unit with
  | (s1, t1, Ok _) => let '(s2, t2, r) := for_each ys body s1 in (s2, t1 ++ t2, r)
  | (s1, t1, Raise e) => (s1, t1, Raise e)
  end.
Proof.
  revert s. induction xs as [|x xs IH]; intros s; simpl.
  - by destruct (for_each ys body s) as [[s2 t2] r].
  - unfold bind. destruct (body x s) as [[s1 t1] [[]|e]]; [|done].
    rewrite IH. destruct (for_each xs body s1) as [[s2 t2] [[]|e]]; [|done].
    destruct (for_each ys body s2) as [[s3 t3] r]. by rewrite app_assoc.
Qed.

End MonadFacts.

Ltac emits_step :=
  lazymatch goal with
  | |- emits _ (_ ≫= _) => apply emits_bind; [|intros ?]
  | |- emits _ (bind _ _) => apply emits_bind; [|intros ?]
  | |- emits _ (mret _) => apply emits_ret
  | |- emits _ (ret _) => apply emits_ret
  | |- emits _ (raise _) => apply emits_raise
  | |- emits _ get => apply emits_get
  | |- emits _ (modify _) => apply emits_modify
  | |- emits _ (emit _) => apply emits_emit; reflexivity
  | |- emits _ (call _ _) => apply emits_call; reflexivity
  | |- emits _ (try_except _ _ _) => apply emits_try_except
  | |- emits _ (try_finally _ _) => apply emits_try_finally
  | |- emits _ (for_each _ _) => apply emits_for_each; intros ?
  | |- emits _ (if ?b then _ else _) => destruct b
  | |- emits _ (match ?x with _ => _ end) => destruct x
  end.

Ltac emits_auto := repeat emits_step.

(** Unfolds the monad's operations and reduces the sequencing. *)
Ltac run_monad :=
  cbv beta iota zeta delta
    [mbind M_bind bind mret M_ret ret call emit get modify raise subroutine].

Section PassFacts.

Context {tensor value scalar : Type}.
Local Abbreviation event := (@event value scalar).
Local Abbreviation M := (@M value scalar).
Local Abbreviation config := (@config tensor value scalar).
Local Abbreviation session_world := (@session_world value scalar).

Implicit Types (cfg : config) (w : session_world).

Lemma emits_setup cfg w : emits setup_event (setup cfg w).
Proof. unfold setup. emits_auto. Qed.

Lemma emits_write_metrics {St} (metrics : gmap string scalar) step dir :
  emits report_event (write_metrics metrics step dir : M St unit).
Proof. unfold write_metrics. emits_auto. Qed.

Lemma emits_append_result key (v : value) :
  emits batch_event (append_result key v : M locals unit).
Proof. unfold append_result. emits_auto. Qed.

Lemma emits_run_batch cfg w batch : emits batch_event (run_batch cfg w batch).
Proof.
  unfold run_batch. destruct (batch_processor cfg) as [processor|].
  - intros st. destruct (processor w batch (counts st)) as [c r]. by repeat constructor.
  - emits_auto.
Qed.

Lemma emits_batches cfg w : emits batch_event (batches_until_exhausted cfg w).
Proof.
  unfold batches_until_exhausted, evaluate_batches, process_batch.
  emits_auto; try apply emits_run_batch; try apply emits_append_result.
Qed.

Lemma emits_aggregate_and_write cfg w : emits report_event (aggregate_and_write cfg w).
Proof. unfold aggregate_and_write. emits_auto. apply emits_write_metrics. Qed.

End PassFacts.

Section PassShapeFacts.

Context {tensor value scalar : Type}.
Local Abbreviation event := (@event value scalar).
Local Abbreviation config := (@config tensor value scalar).
Local Abbreviation session_world := (@session_world value scalar).

Implicit Types (cfg : config) (w : session_world).

Lemma run_pass_shape cfg w :
  pass_shape cfg w (run_checkpoint_once cfg w).1 (run_checkpoint_once cfg w).2.
Proof.
  unfold run_checkpoint_once, run_pass.
  destruct (setup cfg w tt) as [[[] t0] [[]|e]] eqn:Hsetup; simpl.
  2: by apply Setup_raised.
  unfold evaluation_block, with_QueueRunners, emit, call.
  rewrite bind_run. unfold try_finally.
  destruct (batches_until_exhausted cfg w (initial_locals cfg)) as [[st1 t1] r1] eqn:Hb.
  destruct (aggregate_and_write cfg w st1) as [[st2 t2] r2] eqn:Hf.
  pose proof (Block_ran cfg w t0 st1 t1 r1 st2 t2 r2 Hsetup Hb Hf) as Hshape.
  destruct r2 as [[]|e2], r1 as [[]|e1]; simpl in *;
    by rewrite <- ?app_assoc in *.
Qed.

Lemma pass_shape_inv cfg w t r :
  pass_shape cfg w t r →
  (∃ e, r = Raise e ∧ Forall (λ ev, setup_event ev = true) t) ∨
  (∃ t0 t1 t2,
      t = t0 ++ [QueueRunners_enter] ++ t1 ++ t2 ++ [QueueRunners_exit] ++ closing r ∧
      Forall (λ ev, setup_event ev = true) t0 ∧
      Forall (λ ev, batch_event ev = true) t1 ∧
      Forall (λ ev, report_event ev = true) t2).
Proof.
  intros [t0 e Hsetup|t0 st1 t1 r1 st2 t2 r2 Hsetup Hb Hf].
  - left. exists e. split; [done|].
    pose proof (emits_setup cfg w tt) as H. by rewrite Hsetup in H.
  - right. exists t0, t1, t2. split; [done|].
    pose proof (emits_setup cfg w tt) as H0. rewrite Hsetup in H0.
    pose proof (emits_batches cfg w (initial_locals cfg)) as H1. rewrite Hb in H1.
    pose proof (emits_aggregate_and_write cfg w st1) as H2. rewrite Hf in H2.
    done.
Qed.

(** No event of these parts is of kind [ev]. *)
Lemma not_elem_of_kind (P : event → bool) ev (t : list event) :
  P ev = false → Forall (λ e, P e = true) t → ev ∉ t.
Proof.
  intros Hev Ht Hin. rewrite Forall_forall in Ht. apply Ht in Hin. congruence.
Qed.

(** C1, as the code has it: the queue runners entered by a pass are
    always stopped, on normal as on exceptional exit of the block; the
    session is closed exactly when the pass returns normally, and so is
    left open whenever setup, a batch or the aggregation raises. *)
Theorem run_checkpoint_once_releases cfg w :
  (QueueRunners_enter ∈ (run_checkpoint_once cfg w).1 →
   QueueRunners_exit ∈ (run_checkpoint_once cfg w).1) ∧
  (Session_close ∈ (run_checkpoint_once cfg w).1 ↔
   (run_checkpoint_once cfg w).2 = Ok tt).
Proof.
  pose proof (run_pass_shape cfg w) as Hshape.
  destruct (run_checkpoint_once cfg w) as [t r]. cbn [fst snd] in *.
  apply pass_shape_inv in Hshape
    as [(e & -> & H0)|(t0 & t1 & t2 & -> & H0 & H1 & H2)].
  - split; [|split; [|done]];
      intros Hin; by apply (not_elem_of_kind setup_event) in Hin.
  - rewrite !elem_of_app, !list_elem_of_singleton. split.
    + intros _. do 4 right. by left.
    + split.
      * intros [Hin|[Hin|[Hin|[Hin|[Hin|Hin]]]]]; try done.
        -- by apply (not_elem_of_kind setup_event) in Hin.
        -- by apply (not_elem_of_kind batch_event) in Hin.
        -- by apply (not_elem_of_kind report_event) in Hin.
        -- destruct r as [[]|e]; [done|]. by apply elem_of_nil in Hin.
      * intros ->. do 5 right. by apply list_elem_of_singleton.
Qed.

End PassShapeFacts.

(** C1, as stated, fails: with [filename] excluded from the results the
    recognition aggregation raises in the [finally] suite; the session
    that was created is never closed, although the queue runners are
    stopped. *)
Lemma session_left_open_when_aggregation_raises :
  (run_checkpoint_once example_config_no_filename example_runtime).2
    = Raise (ValueError "result_lists does not have expected key set.") ∧
  Session_create ∈ (run_checkpoint_once example_config_no_filename example_runtime).1 ∧
  QueueRunners_exit ∈ (run_checkpoint_once example_config_no_filename example_runtime).1 ∧
  Session_close ∉ (run_checkpoint_once example_config_no_filename example_runtime).1.
Proof.
  split; [by vm_compute|].
  split; [apply list_elem_of_In; vm_compute; tauto|].
  split; [apply list_elem_of_In; vm_compute; tauto|].
  apply (not_elem_of_kind (λ e, match e with Session_close => false | _ => true end));
    [done|].
  vm_compute. repeat constructor.
Qed.

Section SetupFacts.

Context {tensor value scalar : Type}.
Local Abbreviation config := (@config tensor value scalar).
Local Abbreviation session_world := (@session_world value scalar).
Local Abbreviation iteration_world := (@iteration_world value scalar).

Implicit Types (cfg : config) (w : session_world) (world : nat → iteration_world).

(** C3, as the code has it: without checkpoint directories and without
    a restore function, [run_checkpoint_once] raises a [ValueError]
    before any restore and any batch, but, unless the graph-directory
    check raises first, only after the session has been created and the
    initializers have run; [repeated_checkpoint_run] raises a
    [ValueError] before anything else is done. *)
Theorem missing_checkpoint_dirs_raises cfg w eval_interval_secs limit world fuel :
  truthy_list (checkpoint_dirs cfg) = false →
  restore_fn cfg = None →
  (∃ msg, (run_checkpoint_once cfg w).2 = Raise (ValueError msg)) ∧
  (run_checkpoint_once cfg w).1 =
    (if save_graph cfg && String.eqb (save_graph_dir cfg) ""
     then [] else [Session_create; Run_initializers]) ∧
  (∃ msg, repeated_checkpoint_run cfg eval_interval_secs limit world fuel
          = ([], Some (Raise (ValueError msg)))).
Proof.
  intros Hdirs Hrestore.
  assert (setup cfg w tt =
    (tt, if save_graph cfg && String.eqb (save_graph_dir cfg) ""
         then [] else [Session_create; Run_initializers],
     Raise (ValueError
       (if save_graph cfg && String.eqb (save_graph_dir cfg) ""
        then "`save_graph_dir` must be defined."
        else "`checkpoint_dirs` must have at least one entry.")))) as Hsetup.
  { unfold setup. rewrite Hrestore.
    destruct (save_graph cfg && String.eqb (save_graph_dir cfg) ""); [done|].
    by destruct (checkpoint_dirs cfg) as [[|dir0 dirs]|]. }
  unfold run_checkpoint_once, run_pass. rewrite Hsetup. simpl.
  split; [eauto|]. split; [done|].
  unfold repeated_checkpoint_run.
  destruct (limit_and limit _); [eauto|].
  destruct (checkpoint_dirs cfg) as [[|dir0 dirs]|]; [eauto|done|eauto].
Qed.

End SetupFacts.

(** C3, as stated, fails for [run_checkpoint_once]: the session is
    created and the initializers are run before the missing checkpoint
    directories are noticed. *)
Lemma session_created_before_checkpoint_dirs_check :
  truthy_list (checkpoint_dirs example_config_no_checkpoint_dirs) = false ∧
  restore_fn example_config_no_checkpoint_dirs = None ∧
  run_checkpoint_once example_config_no_checkpoint_dirs example_runtime
  = ([Session_create; Run_initializers],
     Raise (ValueError "`checkpoint_dirs` must have at least one entry.")).
Proof. by vm_compute. Qed.

Lemma missing_checkpoint_dirs_raises_witness :
  (∃ msg, (run_checkpoint_once example_config_no_checkpoint_dirs example_runtime).2
          = Raise (ValueError msg)) ∧
  (run_checkpoint_once example_config_no_checkpoint_dirs example_runtime).1
  = [Session_create; Run_initializers] ∧
  (∃ msg, repeated_checkpoint_run example_config_no_checkpoint_dirs 120 (Some 3)
            example_world 10 = ([], Some (Raise (ValueError msg)))).
Proof.
  apply (missing_checkpoint_dirs_raises example_config_no_checkpoint_dirs
           example_runtime 120 (Some 3) example_world 10); reflexivity.
Defined.

(** A negative limit is rejected before anything is done. *)
Lemma negative_limit_raises {tensor value scalar : Type}
    (cfg : @config tensor value scalar) secs (limit : Z) world fuel :
  limit < 0 →
  repeated_checkpoint_run cfg secs (Some limit) world fuel
  = ([], Some (Raise (ValueError
       "`number_of_steps` must be either None or a positive number."))).
Proof.
  intros Hlimit. unfold repeated_checkpoint_run, limit_and, truthy_int.
  assert ((limit =? 0) = false) as -> by lia.
  assert ((limit <=? 0) = true) as -> by lia.
  done.
Qed.

(** C2 at the limit 0: the call is not rejected. After three
    iterations the loop is still polling, and it has run an evaluation
    pass and written its metrics. *)
Lemma zero_limit_is_not_rejected :
  (repeated_checkpoint_run example_config 120 (Some 0) example_world 3).2 = None ∧
  iterations_run (repeated_checkpoint_run example_config 120 (Some 0) example_world 3).1 = 3%nat ∧
  passes_run (repeated_checkpoint_run example_config 120 (Some 0) example_world 3).1 = 1%nat ∧
  count summary_event (repeated_checkpoint_run example_config 120 (Some 0) example_world 3).1 = 3%nat.
Proof. by vm_compute. Qed.

Section PollingFacts.

Context {tensor value scalar : Type}.
Local Abbreviation event := (@event value scalar).
Local Abbreviation config := (@config tensor value scalar).
Local Abbreviation session_world := (@session_world value scalar).
Local Abbreviation iteration_world := (@iteration_world value scalar).

Implicit Types (cfg : config) (w : session_world) (iw : iteration_world)
  (world : nat → iteration_world) (st : poll_state) (limit : option Z).

Lemma poll_iteration_skips cfg secs limit dir0 iw st :
  evaluates (polled_checkpoint iw) (last_evaluated_model_path st) = false →
  poll_iteration cfg secs limit dir0 iw st =
  (incr_number_of_evaluations st,
   poll_prefix dir0
   ++ [Log (if truthy_str (polled_checkpoint iw)
            then "Found already evaluated checkpoint. Will try again in %d seconds"
            else "No model found in %s. Will try again in %d seconds")]
   ++ (iteration_end secs limit iw (number_of_evaluations st + 1)).1,
   Ok (iteration_end secs limit iw (number_of_evaluations st + 1)).2).
Proof.
  unfold evaluates, poll_iteration, iteration_end, time_to_next_eval, pause.
  intros Hskip. run_monad.
  destruct (truthy_str (polled_checkpoint iw)); simpl in *.
  - case_decide as Heq; [|by rewrite bool_decide_eq_false_2 in Hskip].
    simpl. destruct (limit_and limit _); simpl; [done|].
    by destruct (0 <? _).
  - destruct (limit_and limit _); simpl; [done|].
    by destruct (0 <? _).
Qed.

Lemma poll_iteration_evaluates cfg secs limit dir0 iw st :
  evaluates (polled_checkpoint iw) (last_evaluated_model_path st) = true →
  poll_iteration cfg secs limit dir0 iw st =
  match (run_checkpoint_once cfg (runtime iw)).2 with
  | Ok _ =>
      (incr_number_of_evaluations
         (set_last_evaluated_model_path (polled_checkpoint iw) st),
       poll_prefix dir0 ++ (run_checkpoint_once cfg (runtime iw)).1
       ++ (iteration_end secs limit iw (number_of_evaluations st + 1)).1,
       Ok (iteration_end secs limit iw (number_of_evaluations st + 1)).2)
  | Raise e =>
      (set_last_evaluated_model_path (polled_checkpoint iw) st,
       poll_prefix dir0 ++ (run_checkpoint_once cfg (runtime iw)).1,
       Raise e)
  end.
Proof.
  unfold evaluates, poll_iteration, iteration_end, time_to_next_eval, pause.
  intros Hruns. generalize (run_checkpoint_once cfg (runtime iw)).
  intros [t r]. run_monad.
  destruct (truthy_str (polled_checkpoint iw)); simpl in *; [|done].
  case_decide as Heq; [by rewrite bool_decide_eq_true_2 in Hruns|].
  destruct r as [[]|e]; simpl.
  - destruct (limit_and limit _); simpl; [by rewrite ?app_nil_r|].
    destruct (0 <? _); simpl; by rewrite ?app_nil_r.
  - by rewrite ?app_nil_r.
Qed.

End PollingFacts.

Section TraceCounting.

Context {value scalar : Type}.
Local Abbreviation event := (@event value scalar).

Implicit Types (P : event → bool) (t : list event).

Lemma count_app P t1 t2 : count P (t1 ++ t2) = (count P t1 + count P t2)%nat.
Proof. induction t1 as [|e t1 IH]; simpl; [done|]. rewrite IH. lia. Qed.

Lemma count_none P Q t :
  (∀ e, Q e = true → P e = false) → Forall (λ e, Q e = true) t → count P t = 0%nat.
Proof.
  intros HQP. induction 1 as [|e t He _ IH]; simpl; [done|].
  by rewrite (HQP e He), IH.
Qed.

Lemma sleeps_app t1 t2 : sleeps (t1 ++ t2) = sleeps t1 ++ sleeps t2.
Proof. apply omap_app. Qed.

Lemma sleeps_none Q t :
  (∀ e, Q e = true → ∀ secs, e ≠ Sleep secs) →
  Forall (λ e, Q e = true) t → sleeps t = [].
Proof.
  intros HQ. induction 1 as [|e t He _ IH]; [done|].
  change (e :: t) with ([e] ++ t). rewrite sleeps_app, IH.
  destruct e; try done. by destruct (HQ _ He secs).
Qed.

Lemma sleeps_pause (d : Z) : sleeps ((Sleep <$> pause d) : list event) = pause d.
Proof. unfold pause. by destruct (0 <? d). Qed.

End TraceCounting.

Section PassEvents.

Context {tensor value scalar : Type}.
Local Abbreviation event := (@event value scalar).
Local Abbreviation config := (@config tensor value scalar).
Local Abbreviation session_world := (@session_world value scalar).

Implicit Types (cfg : config) (w : session_world).

Lemma pass_events cfg w :
  Forall (λ e, pass_event e = true) (run_checkpoint_once cfg w).1.
Proof.
  destruct (pass_shape_inv _ _ _ _ (run_pass_shape cfg w))
    as [(e & _ & H0)|(t0 & t1 & t2 & -> & H0 & H1 & H2)].
  - eapply Forall_impl; [exact H0|]. intros ev Hev. unfold pass_event. by rewrite Hev.
  - repeat apply Forall_app_2.
    + eapply Forall_impl; [exact H0|]. intros ev Hev. unfold pass_event. by rewrite Hev.
    + by repeat constructor.
    + eapply Forall_impl; [exact H1|]. intros ev Hev. unfold pass_event.
      rewrite Hev. by rewrite orb_true_r.
    + eapply Forall_impl; [exact H2|]. intros ev Hev. unfold pass_event.
      rewrite Hev. by rewrite !orb_true_r.
    + by repeat constructor.
    + unfold closing. destruct (is_Ok _); by repeat constructor.
Qed.

Lemma setup_creates_one_session cfg w :
  (passes_run (setup cfg w tt).1.2 ≤ 1)%nat.
Proof.
  unfold setup, passes_run. run_monad.
  destruct (save_graph cfg), (String.eqb _ _); simpl; try lia;
    (destruct (restore_fn cfg) as [restore|]; simpl;
     [ destruct (restore w) as [[]|]; simpl; lia
     | destruct (checkpoint_dirs cfg) as [[|dir0 dirs]|]; simpl; try lia;
       destruct (saver_restore w _) as [[]|]; simpl; lia ]).
Qed.

Lemma pass_creates_one_session cfg w :
  (passes_run (run_checkpoint_once cfg w).1 ≤ 1)%nat.
Proof.
  pose proof (setup_creates_one_session cfg w) as Hsetup.
  destruct (run_pass_shape cfg w) as [t0 e H0|t0 st1 t1 r1 st2 t2 r2 H0 H1 H2].
  - by rewrite H0 in Hsetup.
  - rewrite H0 in Hsetup. simpl in Hsetup.
    pose proof (emits_batches cfg w (initial_locals cfg)) as Hb. rewrite H1 in Hb.
    pose proof (emits_aggregate_and_write cfg w st1) as Hf. rewrite H2 in Hf.
    unfold passes_run in *. rewrite !count_app.
    rewrite (count_none is_Session_create batch_event t1); [|by intros []|done].
    rewrite (count_none is_Session_create report_event t2); [|by intros []|done].
    unfold closing. destruct (is_Ok _); simpl; lia.
Qed.

End PassEvents.

Section PollingLoop.

Context {tensor value scalar : Type}.
Local Abbreviation event := (@event value scalar).
Local Abbreviation config := (@config tensor value scalar).
Local Abbreviation iteration_world := (@iteration_world value scalar).

Implicit Types (cfg : config) (iw : iteration_world)
  (world : nat → iteration_world) (st : poll_state) (limit : option Z).

Lemma pass_event_not_start (e : event) :
  pass_event e = true → is_iteration_start e = false.
Proof.
  destruct e; try done. unfold pass_event. simpl. unfold pass_log.
  by destruct (String.eqb fmt _).
Qed.

Lemma pass_event_not_sleep (e : event) :
  pass_event e = true → ∀ secs, e ≠ Sleep secs.
Proof. intros He secs ->. discriminate He. Qed.

(** What one iteration whose pass, if any, returns normally does: it is
    counted, it starts once, it runs at most one pass, and it ends as
    [iteration_end] says. *)
Lemma poll_iteration_counts cfg secs limit dir0 iw st :
  (run_checkpoint_once cfg (runtime iw)).2 = Ok tt →
  ∃ st' t,
    poll_iteration cfg secs limit dir0 iw st
    = (st', t, Ok (iteration_end secs limit iw (number_of_evaluations st + 1)).2) ∧
    number_of_evaluations st' = number_of_evaluations st + 1 ∧
    iterations_run t = 1%nat ∧
    (passes_run t ≤ 1)%nat ∧
    sleeps t = sleeps (iteration_end secs limit iw (number_of_evaluations st + 1)).1.
Proof.
  intros Hpass.
  assert (∀ n, iterations_run (iteration_end secs limit iw n).1 = 0%nat) as Hend1.
  { intros n. unfold iteration_end, pause.
    destruct (limit_and _ _); [done|]. by destruct (0 <? _). }
  assert (∀ n, passes_run (iteration_end secs limit iw n).1 = 0%nat) as Hend2.
  { intros n. unfold iteration_end, pause.
    destruct (limit_and _ _); [done|]. by destruct (0 <? _). }
  destruct (evaluates (polled_checkpoint iw) (last_evaluated_model_path st)) eqn:Hev.
  - rewrite (poll_iteration_evaluates _ _ _ _ _ _ Hev), Hpass.
    eexists _, _. split; [done|]. split; [done|].
    pose proof (pass_events cfg (runtime iw)) as Hevents.
    unfold iterations_run, passes_run in *.
    rewrite !count_app, !sleeps_app, Hend1, Hend2.
    rewrite (count_none is_iteration_start pass_event (run_checkpoint_once _ _).1);
      [|apply pass_event_not_start|done].
    rewrite (sleeps_none pass_event (run_checkpoint_once _ _).1);
      [|apply pass_event_not_sleep|done].
    pose proof (pass_creates_one_session cfg (runtime iw)) as Hone.
    unfold passes_run in Hone.
    change (count is_iteration_start (poll_prefix dir0)) with 1%nat.
    change (count is_Session_create (poll_prefix dir0)) with 0%nat.
    split; [done|]. split; [lia|done].
  - rewrite (poll_iteration_skips _ _ _ _ _ _ Hev).
    eexists _, _. split; [done|]. split; [done|].
    unfold iterations_run, passes_run in *.
    rewrite !count_app, !sleeps_app, Hend1, Hend2.
    destruct (truthy_str _); simpl; (split; [done|]; split; [lia|done]).
Qed.

(** With a positive limit [M], an iteration breaks the loop exactly when
    it is the [M]-th. *)
Lemma iteration_end_limit secs (M : Z) iw n :
  0 < M →
  iteration_end secs (Some M) iw n =
  if M <=? n
  then ([Log "Finished evaluation!"], true)
  else (Time_time :: (Sleep <$> pause (time_to_next_eval secs iw)), false).
Proof.
  intros HM. unfold iteration_end, limit_and, truthy_int.
  assert ((M =? 0) = false) as -> by lia. done.
Qed.

(** Without a limit, and with the limit 0, no iteration breaks the loop. *)
Lemma iteration_end_no_limit secs limit iw n :
  truthy_int limit = false →
  iteration_end secs limit iw n
  = (Time_time :: (Sleep <$> pause (time_to_next_eval secs iw)), false).
Proof. intros Hl. unfold iteration_end, limit_and. by rewrite Hl. Qed.

Lemma poll_loop_stops cfg secs (M : Z) world dir0 :
  0 < M →
  (∀ i, (run_checkpoint_once cfg (runtime (world i))).2 = Ok tt) →
  ∀ (k fuel i : nat) st,
    number_of_evaluations st + Z.of_nat (S k) = M →
    (S k ≤ fuel)%nat →
    ∃ st' t,
      poll_loop cfg secs (Some M) world dir0 fuel i st = (st', t, Some (Ok tt)) ∧
      iterations_run t = S k ∧
      (passes_run t ≤ S k)%nat ∧
      sleeps t = flat_map (λ j, pause (time_to_next_eval secs (world j))) (seq i k).
Proof.
  intros HM Hpass. induction k as [|k IH]; intros fuel i st Hn Hfuel.
  - destruct fuel as [|fuel]; [lia|]. simpl.
    destruct (poll_iteration_counts cfg secs (Some M) dir0 (world i) st (Hpass i))
      as (st1 & t1 & -> & Hn1 & Hi1 & Hp1 & Hs1).
    rewrite iteration_end_limit in * by done.
    assert ((M <=? number_of_evaluations st + 1) = true) as Hle by lia.
    rewrite Hle in *. simpl. by exists st1, t1.
  - destruct fuel as [|fuel]; [lia|]. simpl.
    destruct (poll_iteration_counts cfg secs (Some M) dir0 (world i) st (Hpass i))
      as (st1 & t1 & -> & Hn1 & Hi1 & Hp1 & Hs1).
    rewrite iteration_end_limit in * by done.
    assert ((M <=? number_of_evaluations st + 1) = false) as Hle by lia.
    rewrite Hle in *. simpl in *.
    destruct (IH fuel (S i) st1) as (st2 & t2 & -> & Hi2 & Hp2 & Hs2); [lia|lia|].
    eexists _, _. split; [done|].
    unfold iterations_run, passes_run in *.
    rewrite !count_app, sleeps_app, Hi1, Hi2, Hs1, Hs2.
    change (sleeps (Time_time :: ?t)) with (sleeps t).
    rewrite sleeps_pause. split; [done|]. split; [lia|done].
Qed.

Lemma poll_loop_runs_on cfg secs limit world dir0 :
  truthy_int limit = false →
  (∀ i, (run_checkpoint_once cfg (runtime (world i))).2 = Ok tt) →
  ∀ (fuel i : nat) st,
    ∃ st' t,
      poll_loop cfg secs limit world dir0 fuel i st = (st', t, None) ∧
      iterations_run t = fuel ∧
      sleeps t = flat_map (λ j, pause (time_to_next_eval secs (world j))) (seq i fuel).
Proof.
  intros Hl Hpass. induction fuel as [|fuel IH]; intros i st; simpl; [by eauto|].
  destruct (poll_iteration_counts cfg secs limit dir0 (world i) st (Hpass i))
    as (st1 & t1 & -> & Hn1 & Hi1 & Hp1 & Hs1).
  rewrite iteration_end_no_limit in * by done. simpl in *.
  destruct (IH (S i) st1) as (st2 & t2 & -> & Hi2 & Hs2).
  eexists _, _. split; [done|].
  unfold iterations_run in *. rewrite count_app, sleeps_app, Hs1, Hs2.
  change (sleeps (Time_time :: ?t)) with (sleeps t).
  rewrite sleeps_pause. split; [lia|done].
Qed.

(** C8, as the code has it: with a positive limit [M], and as long as
    no pass raises, the loop returns after [M] polling iterations; every
    iteration is counted, whether it ran a pass or not, so at most [M]
    passes are run. Between two iterations the loop sleeps for what is
    left of the interval, [start + eval_interval_secs - now], when that
    is positive, and not at all otherwise; after the last iteration it
    does not sleep. Without a limit the loop is still running after any
    number of iterations, sleeping in the same way after each. *)
Theorem polling_stops_after_limit_iterations cfg secs (M : Z) world fuel dir0 dirs :
  checkpoint_dirs cfg = Some (dir0 :: dirs) →
  0 < M →
  (Z.to_nat M ≤ fuel)%nat →
  (∀ i, (run_checkpoint_once cfg (runtime (world i))).2 = Ok tt) →
  (repeated_checkpoint_run cfg secs (Some M) world fuel).2 = Some (Ok tt) ∧
  iterations_run (repeated_checkpoint_run cfg secs (Some M) world fuel).1 = Z.to_nat M ∧
  (passes_run (repeated_checkpoint_run cfg secs (Some M) world fuel).1 ≤ Z.to_nat M)%nat ∧
  sleeps (repeated_checkpoint_run cfg secs (Some M) world fuel).1
  = flat_map (λ i, pause (time_to_next_eval secs (world i))) (seq 0 (Z.to_nat M - 1)) ∧
  (∀ n, (repeated_checkpoint_run cfg secs None world n).2 = None ∧
        iterations_run (repeated_checkpoint_run cfg secs None world n).1 = n ∧
        sleeps (repeated_checkpoint_run cfg secs None world n).1
        = flat_map (λ i, pause (time_to_next_eval secs (world i))) (seq 0 n)).
Proof.
  intros Hdirs HM Hfuel Hpass. unfold repeated_checkpoint_run. rewrite Hdirs.
  assert (limit_and (Some M) (λ m, m <=? 0) = false) as ->.
  { unfold limit_and, truthy_int. lia. }
  simpl limit_and. cbv iota.
  destruct (poll_loop_stops cfg secs M world dir0 HM Hpass
              (Z.to_nat M - 1) fuel 0%nat initial_poll_state)
    as (st' & t & -> & Hi & Hp & Hs); [simpl; lia|lia|].
  simpl. rewrite Hi, Hs. split_and!; [done|lia|lia|done|].
  intros n.
  by destruct (poll_loop_runs_on cfg secs None world dir0 eq_refl Hpass
                 n 0%nat initial_poll_state) as (st2 & t2 & -> & Hi2 & Hs2).
Qed.

Lemma evaluation_events_app (t1 t2 : list event) :
  evaluation_events (t1 ++ t2) = evaluation_events t1 ++ evaluation_events t2.
Proof. apply List.filter_app. Qed.

Lemma evaluation_events_none (t : list event) :
  Forall (λ e, evaluation_event e = false) t → evaluation_events t = [].
Proof.
  induction 1 as [|e t He _ IH]; [done|].
  unfold evaluation_events in *. simpl. by rewrite He.
Qed.

Lemma iteration_end_bookkeeping secs limit iw n :
  Forall (λ e : event, evaluation_event e = false) (iteration_end secs limit iw n).1.
Proof.
  unfold iteration_end, pause.
  destruct (limit_and _ _); [by repeat constructor|].
  destruct (0 <? _); by repeat constructor.
Qed.

(** Once a path is recorded, polls that keep resolving it do no
    evaluation work, however long the loop goes on. *)
Lemma poll_loop_unchanged cfg secs limit world dir0 path :
  (∀ i, polled_checkpoint (world i) = path) →
  ∀ (fuel i : nat) st,
    last_evaluated_model_path st = path →
    evaluation_events (poll_loop cfg secs limit world dir0 fuel i st).1.2 = [].
Proof.
  intros Hpath. induction fuel as [|fuel IH]; intros i st Hlast; [done|].
  simpl.
  assert (evaluates (polled_checkpoint (world i)) (last_evaluated_model_path st) = false)
    as Hskip.
  { unfold evaluates. rewrite Hpath, Hlast, bool_decide_eq_true_2 by done.
    apply andb_false_r. }
  rewrite (poll_iteration_skips _ _ _ _ _ _ Hskip).
  assert (evaluation_events
            (poll_prefix dir0
             ++ [Log (if truthy_str (polled_checkpoint (world i))
                      then "Found already evaluated checkpoint. Will try again in %d seconds"
                      else "No model found in %s. Will try again in %d seconds")]
             ++ (iteration_end secs limit (world i) (number_of_evaluations st + 1)).1)
          = []) as Hnone.
  { rewrite !evaluation_events_app.
    by rewrite (evaluation_events_none _ (iteration_end_bookkeeping _ _ _ _)). }
  destruct (iteration_end secs limit (world i) _) as [tend []]; simpl in *; [done|].
  specialize (IH (S i) (incr_number_of_evaluations st) Hlast).
  destruct (poll_loop _ _ _ _ _ _ _ _) as [[st2 t2] r]. simpl in *.
  by rewrite evaluation_events_app, Hnone, IH.
Qed.

(** C5: an iteration whose poll resolves the last evaluated path runs
    no evaluation pass and writes no metric, and leaves the recorded
    path as it is; an iteration makes a call of an evaluation pass only
    if the resolved path exists and differs from the recorded one; and
    when it exists and differs, the pass is run once, right after the
    poll, and the path is recorded. So, when every poll of a run
    resolves one and the same checkpoint, all the evaluation work of the
    run, however long, is that of the single pass of its first
    iteration. *)
Theorem poll_iteration_evaluates_new_checkpoints_only cfg secs limit dir0 iw st :
  (polled_checkpoint iw = last_evaluated_model_path st →
   Forall (λ e, evaluation_event e = false) (poll_iteration cfg secs limit dir0 iw st).1.2 ∧
   last_evaluated_model_path (poll_iteration cfg secs limit dir0 iw st).1.1
   = last_evaluated_model_path st) ∧
  (∀ e, e ∈ (poll_iteration cfg secs limit dir0 iw st).1.2 →
        evaluation_event e = true →
        truthy_str (polled_checkpoint iw) = true ∧
        polled_checkpoint iw ≠ last_evaluated_model_path st) ∧
  (truthy_str (polled_checkpoint iw) = true →
   polled_checkpoint iw ≠ last_evaluated_model_path st →
   (∃ tail, (poll_iteration cfg secs limit dir0 iw st).1.2
            = poll_prefix dir0 ++ (run_checkpoint_once cfg (runtime iw)).1 ++ tail ∧
            Forall (λ e, evaluation_event e = false) tail) ∧
   last_evaluated_model_path (poll_iteration cfg secs limit dir0 iw st).1.1
   = polled_checkpoint iw) ∧
  (∀ world (fuel : nat) path,
     truthy_str path = true →
     (∀ i, polled_checkpoint (world i) = path) →
     evaluation_events
       (poll_loop cfg secs limit world dir0 (S fuel) 0 initial_poll_state).1.2
     = evaluation_events (run_checkpoint_once cfg (runtime (world 0%nat))).1).
Proof.
  assert (∀ iw n, Forall (λ e : event, evaluation_event e = false)
                    (iteration_end secs limit iw n).1) as Hend
    by (intros; apply iteration_end_bookkeeping).
  assert (evaluates (polled_checkpoint iw) (last_evaluated_model_path st) = false →
          Forall (λ e, evaluation_event e = false)
            (poll_iteration cfg secs limit dir0 iw st).1.2 ∧
          last_evaluated_model_path (poll_iteration cfg secs limit dir0 iw st).1.1
          = last_evaluated_model_path st) as Hskip.
  { intros Hev. rewrite (poll_iteration_skips _ _ _ _ _ _ Hev). simpl.
    split; [|done]. repeat constructor. apply Hend. }
  split; [|split; [|split]].
  - intros Heq. apply Hskip. unfold evaluates.
    rewrite bool_decide_eq_true_2 by done. apply andb_false_r.
  - intros e Hin He.
    destruct (evaluates (polled_checkpoint iw) (last_evaluated_model_path st)) eqn:Hev.
    + unfold evaluates in Hev. apply andb_true_iff in Hev as [Ht Hne].
      split; [done|]. apply negb_true_iff, bool_decide_eq_false in Hne. done.
    + destruct (Hskip eq_refl) as [Hall _].
      rewrite Forall_forall in Hall. apply Hall in Hin. congruence.
  - intros Ht Hne.
    assert (evaluates (polled_checkpoint iw) (last_evaluated_model_path st) = true) as Hev.
    { unfold evaluates. rewrite Ht. by rewrite bool_decide_eq_false_2. }
    rewrite (poll_iteration_evaluates _ _ _ _ _ _ Hev).
    destruct (run_checkpoint_once cfg (runtime iw)) as [t [[]|e]]; simpl.
    + split; [|done]. eexists. split; [done|]. apply Hend.
    + split; [|done]. exists []. by rewrite app_nil_r.
  - intros world fuel path Htruthy Hpath. cbn [poll_loop].
    assert (evaluates (polled_checkpoint (world 0%nat))
              (last_evaluated_model_path initial_poll_state) = true) as Hev.
    { unfold evaluates. rewrite Hpath, Htruthy. simpl.
      rewrite bool_decide_eq_false_2; [done|]. by destruct path. }
    rewrite (poll_iteration_evaluates _ _ _ _ _ _ Hev).
    assert (∀ t : list event, evaluation_events (poll_prefix dir0 ++ t)
                              = evaluation_events t) as Hprefix by done.
    destruct (run_checkpoint_once cfg (runtime (world 0%nat))) as [t [[]|e]];
      cbn [fst snd]; [|apply Hprefix].
    pose proof (Hend (world 0%nat) (number_of_evaluations initial_poll_state + 1)) as Hend0.
    pose proof (poll_loop_unchanged cfg secs limit world dir0 path Hpath fuel 1
                  (incr_number_of_evaluations
                     (set_last_evaluated_model_path (polled_checkpoint (world 0%nat))
                        initial_poll_state))) as Hrest.
    destruct (iteration_end secs limit (world 0%nat) _) as [tend []]; cbn [fst snd] in *.
    + rewrite Hprefix, evaluation_events_app, (evaluation_events_none _ Hend0).
      apply app_nil_r.
    + destruct (poll_loop _ _ _ _ _ _ _ _) as [[st2 t2] r]. cbn [fst snd] in *.
      rewrite <- app_assoc, Hprefix, !evaluation_events_app.
      rewrite (evaluation_events_none _ Hend0), Hrest; [|simpl; apply Hpath].
      by rewrite !app_nil_r.
Qed.

End PollingLoop.

(** C8, as stated, fails: with the limit 3 the loop returns after three
    iterations, of which only one ran an evaluation pass (the first poll
    found no checkpoint, the third found the one already evaluated). *)
Lemma limit_counts_iterations_not_passes :
  (repeated_checkpoint_run example_config 120 (Some 3) example_world 10).2 = Some (Ok tt) ∧
  iterations_run (repeated_checkpoint_run example_config 120 (Some 3) example_world 10).1 = 3%nat ∧
  passes_run (repeated_checkpoint_run example_config 120 (Some 3) example_world 10).1 = 1%nat.
Proof. by vm_compute. Qed.

Lemma polling_stops_after_limit_iterations_witness :
  (repeated_checkpoint_run example_config 120 (Some 3) example_world 10).2 = Some (Ok tt) ∧
  iterations_run (repeated_checkpoint_run example_config 120 (Some 3) example_world 10).1 = 3%nat ∧
  (passes_run (repeated_checkpoint_run example_config 120%Z (Some 3%Z) example_world 10).1 ≤ 3)%nat ∧
  sleeps (repeated_checkpoint_run example_config 120 (Some 3) example_world 10).1 = [120; 70] ∧
  (∀ n, (repeated_checkpoint_run example_config 120 None example_world n).2 = None ∧
        iterations_run (repeated_checkpoint_run example_config 120 None example_world n).1 = n ∧
        sleeps (repeated_checkpoint_run example_config 120 None example_world n).1
        = flat_map (λ i, pause (time_to_next_eval 120 (example_world i))) (seq 0 n)).
Proof.
  apply (polling_stops_after_limit_iterations example_config 120 3 example_world 10
           "train" []).
  - reflexivity.
  - lia.
  - vm_compute. lia.
  - intros i. vm_compute. reflexivity.
Defined.

Section BatchFacts.

Context {tensor value scalar : Type}.
Local Abbreviation event := (@event value scalar).
Local Abbreviation M := (@M value scalar).
Local Abbreviation locals := (@locals value scalar).
Local Abbreviation config := (@config tensor value scalar).
Local Abbreviation session_world := (@session_world value scalar).

Implicit Types (cfg : config) (w : session_world) (st : locals)
  (rl : gmap string (list value)) (valid : gset string).

Lemma lookup_appended valid (d : gmap string value) rl key :
  appended valid d rl !! key =
  (λ l, match d !! key with
        | Some v => if decide (key ∈ valid) then l ++ [v] else l
        | None => l
        end) <$> rl !! key.
Proof. unfold appended. rewrite map_lookup_imap. by destruct (rl !! key). Qed.

Lemma dom_appended valid (d : gmap string value) rl :
  dom (appended valid d rl) = dom rl.
Proof.
  apply set_eq. intros key. rewrite !elem_of_dom, lookup_appended.
  by rewrite fmap_is_Some.
Qed.

Lemma appended_empty valid rl : appended valid ∅ rl = rl.
Proof.
  apply map_eq. intros key. rewrite lookup_appended, lookup_empty.
  by destruct (rl !! key).
Qed.

(** Lines 172-174: the loop that appends the results of one batch. *)
Lemma append_results valid (items : list (string * value)) st :
  NoDup items.*1 →
  valid ⊆ dom (result_lists st) →
  for_each items
    (λ kv, if decide (kv.1 ∈ valid) then append_result kv.1 kv.2 else mret tt) st
  = (set_result_lists (appended valid (list_to_map items) (result_lists st)) st,
     [], Ok tt).
Proof.
  revert st. induction items as [|[key v] items IH]; intros st Hnodup Hdom.
  - simpl. unfold ret. f_equal. f_equal.
    change (list_to_map []) with (∅ : gmap string value).
    rewrite appended_empty. by destruct st.
  - apply NoDup_cons in Hnodup as [Hfresh Hnodup].
    assert ((list_to_map items : gmap string value) !! key = None) as Hnone
      by by apply not_elem_of_list_to_map_1.
    simpl. unfold bind. simpl. case_decide as Hvalid.
    + assert (is_Some (result_lists st !! key)) as [l Hl]
        by (apply elem_of_dom; set_solver).
      unfold append_result. run_monad. rewrite Hl. simpl.
      rewrite IH; [|done|simpl; rewrite dom_insert_L; set_solver].
      simpl. f_equal. f_equal. unfold set_result_lists. simpl. f_equal.
      apply map_eq. intros j. rewrite !lookup_appended.
      destruct (decide (j = key)) as [->|Hne].
      * rewrite lookup_insert_eq, Hnone, lookup_insert_eq, Hl. simpl.
        by rewrite decide_True.
      * by rewrite !lookup_insert_ne.
    + unfold mret, M_ret, ret. rewrite IH by done.
      simpl. f_equal. f_equal. f_equal.
      apply map_eq. intros j. rewrite !lookup_appended.
      destruct (decide (j = key)) as [->|Hne].
      * rewrite lookup_insert_eq, Hnone.
        destruct (result_lists st !! key); simpl; [by rewrite decide_False|done].
      * by rewrite lookup_insert_ne.
Qed.

(** [run_batch] touches the counters only. *)
Lemma run_batch_locals cfg w batch st :
  result_lists (run_batch cfg w batch st).1.1 = result_lists st ∧
  other_metrics (run_batch cfg w batch st).1.1 = other_metrics st.
Proof.
  unfold run_batch. destruct (batch_processor cfg) as [processor|].
  - by destruct (processor w batch (counts st)) as [c r].
  - unfold try_except. run_monad.
    destruct (sess_run_batch w batch) as [d|e]; simpl; [done|].
    by destruct (is_InvalidArgumentError e).
Qed.

(** The body of the batch loop, in one step. *)
Lemma process_batch_run cfg w batch st :
  valid_keys cfg ⊆ dom (result_lists st) →
  process_batch cfg w batch st =
  match run_batch cfg w batch st with
  | (st1, t1, Ok result_dict) =>
      (set_result_lists (appended (valid_keys cfg) result_dict (result_lists st1)) st1,
       progress batch ++ t1, Ok tt)
  | (st1, t1, Raise e) => (st1, progress batch ++ t1, Raise e)
  end.
Proof.
  intros Hdom. pose proof (run_batch_locals cfg w batch st) as [Hrl _].
  unfold process_batch, progress.
  rewrite bind_run.
  assert (∀ (b : bool) s,
    (if b then emit (Log "Running eval ops batch %d/%d") else mret tt : M locals unit) s
    = (s, if b then [Log "Running eval ops batch %d/%d"] else [], Ok tt)) as ->
    by by intros [] s.
  rewrite bind_run.
  destruct (run_batch cfg w batch st) as [[st1 t1] [d|e]]; simpl in *; [|done].
  rewrite append_results.
  - by rewrite list_to_map_to_list, app_nil_r.
  - apply NoDup_fst_map_to_list.
  - by rewrite Hrl.
Qed.

(** Without a batch processor, [run_batch] calls [sess.run] and counts. *)
Lemma run_batch_default cfg w batch st :
  batch_processor cfg = None →
  run_batch cfg w batch st =
  match sess_run_batch w batch with
  | Ok result_dict =>
      (set_counts (incr_success (counts st)) st, [Sess_run_batch batch], Ok result_dict)
  | Raise e =>
      if is_InvalidArgumentError e
      then (set_counts (incr_skipped (counts st)) st,
            [Sess_run_batch batch; Log "Skipping image"], Ok ∅)
      else (st, [Sess_run_batch batch], Raise e)
  end.
Proof.
  intros Hnone. unfold run_batch. rewrite Hnone. unfold try_except. run_monad.
  destruct (sess_run_batch w batch) as [d|e]; simpl; [done|].
  by destruct (is_InvalidArgumentError e).
Qed.

End BatchFacts.

Section DefaultBatchLoop.

Context {tensor value scalar : Type}.
Local Abbreviation event := (@event value scalar).
Local Abbreviation M := (@M value scalar).
Local Abbreviation locals := (@locals value scalar).
Local Abbreviation config := (@config tensor value scalar).
Local Abbreviation session_world := (@session_world value scalar).

Implicit Types (cfg : config) (w : session_world) (st : locals).



Lemma batches_run_app (t1 t2 : list event) :
  batches_run (t1 ++ t2) = batches_run t1 ++ batches_run t2.
Proof. apply omap_app. Qed.

Lemma batches_run_progress batch : batches_run (progress batch : list event) = [].
Proof. unfold progress. by destruct (_ =? _). Qed.



End DefaultBatchLoop.

Section FinallySuite.

Context {tensor value scalar : Type}.
Local Abbreviation event := (@event value scalar).
Local Abbreviation M := (@M value scalar).
Local Abbreviation locals := (@locals value scalar).
Local Abbreviation config := (@config tensor value scalar).
Local Abbreviation session_world := (@session_world value scalar).

Implicit Types (cfg : config) (w : session_world) (st : locals).

Lemma for_each_pure {St A} (items : list A) (body : A → M St unit)
    (tr : A → list event) s :
  (∀ x s, body x s = (s, tr x, Ok tt)) →
  for_each items body s = (s, flat_map tr items, Ok tt).
Proof.
  intros Hbody. induction items as [|x items IH]; simpl; [done|].
  unfold bind. by rewrite Hbody, IH.
Qed.

Lemma write_metrics_run {St} (metrics : gmap string scalar) step dir (s : St) :
  (write_metrics metrics step dir : M St unit) s
  = (s, write_metrics_trace metrics step dir, Ok tt).
Proof.
  unfold write_metrics, write_metrics_trace.
  run_monad.
  rewrite (for_each_pure _ _ (λ kv, [Add_summary kv.1 kv.2 step; Log "%s: %f"])) by done.
  simpl. by rewrite ?app_nil_r.
Qed.

(** After the call of the aggregation function, the [finally] suite
    makes no other such call. *)
Lemma report_after_aggregation (metrics : gmap string scalar) step dir :
  Forall (λ e : event, match e with Aggregate _ => False | _ => True end)
    ([Global_step] ++ write_metrics_trace metrics step dir
     ++ [Log "# success: %d"; Log "# skipped: %d"]).
Proof.
  unfold write_metrics_trace.
  repeat first [apply Forall_app; split | apply Forall_cons; split | apply Forall_nil];
    try done.
  induction (sorted_items metrics) as [|kv items IH]; by repeat constructor.
Qed.

(** The [finally] suite, in one step. *)
Lemma aggregate_and_write_run cfg w st :
  aggregate_and_write cfg w st =
  match aggregate cfg (result_lists st) with
  | Ok metrics =>
      (st,
       [Aggregate (result_lists st); Global_step]
       ++ write_metrics_trace (merged_metrics (other_metrics st) metrics)
            (global_step w) (summary_dir cfg)
       ++ [Log "# success: %d"; Log "# skipped: %d"],
       Ok tt)
  | Raise e => (st, [Aggregate (result_lists st)], Raise e)
  end.
Proof.
  unfold aggregate_and_write. run_monad.
  destruct (aggregate cfg (result_lists st)) as [metrics|e]; [|done].
  rewrite write_metrics_run. unfold merged_metrics.
  simpl. by rewrite <- ?app_assoc, ?app_nil_r.
Qed.




End FinallySuite.

Section RecognitionResults.

Context {tensor value scalar : Type}.
Local Abbreviation event := (@event value scalar).
Local Abbreviation config := (@config tensor value scalar).
Local Abbreviation session_world := (@session_world value scalar).

Implicit Types (cfg : config) (w : session_world) (rl : gmap string (list value))
  (evaluate_all : list (value * value * value) → result (gmap string scalar)).

Lemma expected_key_cases (key : string) :
  key ∈ expected_keys →
  key = "groundtruth_text" ∨ key = "recognition_text" ∨ key = "filename".
Proof.
  unfold expected_keys. intros Hkey.
  repeat (apply elem_of_cons in Hkey as [->|Hkey]; [tauto|]).
  by apply elem_of_nil in Hkey.
Qed.

Lemma evaluate_recognition_results_rejects evaluate_all rl :
  lacks_expected_key rl ∨ unequal_sizes rl →
  ∃ msg, evaluate_recognition_results evaluate_all rl = Raise (ValueError msg).
Proof.
  intros Hbad. unfold evaluate_recognition_results.
  destruct (bool_decide (list_to_set expected_keys ⊆ dom rl)) eqn:Hsub; simpl;
    [|eauto].
  apply bool_decide_eq_true in Hsub.
  assert (∀ key, key ∈ expected_keys → is_Some (rl !! key)) as Hpresent.
  { intros key Hkey. apply elem_of_dom, Hsub. by apply elem_of_list_to_set. }
  destruct (Hpresent "groundtruth_text") as [g Hg]; [by repeat constructor|].
  destruct (Hpresent "recognition_text") as [r Hr]; [by repeat constructor|].
  destruct (Hpresent "filename") as [f Hf]; [by repeat constructor|].
  destruct Hbad as [(key & Hkey & Hnone)|(k1 & k2 & l1 & l2 & Hk1 & Hk2 & Hl1 & Hl2 & Hne)].
  { destruct (Hpresent key Hkey) as [l Hl]. congruence. }
  unfold mbind, result_bind, getitem. rewrite Hg, Hr, Hf. simpl.
  rewrite Nat.eqb_refl. simpl.
  destruct (length r =? length g)%nat eqn:Hrg; simpl; [|eauto].
  destruct (length f =? length g)%nat eqn:Hfg; simpl; [|eauto].
  apply Nat.eqb_eq in Hrg, Hfg. exfalso. apply Hne.
  destruct (expected_key_cases k1 Hk1) as [-> | [-> | ->]],
           (expected_key_cases k2 Hk2) as [-> | [-> | ->]]; congruence.
Qed.

(** C6: a mapping that lacks [groundtruth_text], [recognition_text] or
    [filename], or holds them with sequences of different lengths, makes
    [evaluate_recognition_results] raise a [ValueError]; and a pass that
    hands such a mapping to it ends with that [ValueError] without
    having opened the summary log or written a metric. *)
Theorem recognition_results_are_checked_before_writing :
  (∀ evaluate_all rl,
     lacks_expected_key rl ∨ unequal_sizes rl →
     ∃ msg, evaluate_recognition_results evaluate_all rl = Raise (ValueError msg)) ∧
  (∀ cfg w evaluate_all rl,
     aggregated_result_processor cfg = Some (evaluate_recognition_results evaluate_all) →
     Aggregate rl ∈ (run_checkpoint_once cfg w).1 →
     lacks_expected_key rl ∨ unequal_sizes rl →
     (∃ msg, (run_checkpoint_once cfg w).2 = Raise (ValueError msg)) ∧
     count summary_event (run_checkpoint_once cfg w).1 = 0%nat).
Proof.
  split; [apply evaluate_recognition_results_rejects|].
  intros cfg w evaluate_all rl Hprocessor Hin Hbad.
  pose proof (run_pass_shape cfg w) as Hshape.
  destruct (run_checkpoint_once cfg w) as [t r]. cbn [fst snd] in *.
  destruct Hshape as [t0 e H0|t0 st1 t1 r1 st2 t2 r2 H0 H1 H2].
  { pose proof (emits_setup cfg w tt) as Hsetup. rewrite H0 in Hsetup.
    by apply (not_elem_of_kind setup_event) in Hin. }
  pose proof (emits_setup cfg w tt) as Hsetup. rewrite H0 in Hsetup.
  pose proof (emits_batches cfg w (initial_locals cfg)) as Hbatches. rewrite H1 in Hbatches.
  simpl in Hsetup, Hbatches.
  rewrite aggregate_and_write_run in H2.
  assert (rl = result_lists st1) as ->.
  { rewrite !elem_of_app in Hin.
    destruct Hin as [Hin|[Hin|[Hin|[Hin|[Hin|Hin]]]]].
    - by apply (not_elem_of_kind setup_event) in Hin.
    - by apply list_elem_of_singleton in Hin.
    - by apply (not_elem_of_kind batch_event) in Hin.
    - destruct (aggregate cfg (result_lists st1)) as [metrics|e];
        injection H2 as Hst2 Ht2 Hr2; subst st2 t2 r2.
      + apply elem_of_cons in Hin as [Hin|Hin]; [congruence|]. exfalso.
        pose proof (report_after_aggregation (value:=value)
          (merged_metrics (other_metrics st1) metrics) (global_step w) (summary_dir cfg))
          as Hreport.
        rewrite Forall_forall in Hreport. exact (Hreport _ Hin).
      + apply list_elem_of_singleton in Hin. congruence.
    - by apply list_elem_of_singleton in Hin.
    - unfold closing in Hin. destruct (is_Ok _); [|by apply elem_of_nil in Hin].
      by apply list_elem_of_singleton in Hin. }
  unfold aggregate in H2. rewrite Hprocessor in H2.
  destruct (evaluate_recognition_results_rejects evaluate_all _ Hbad) as [msg Hmsg].
  rewrite Hmsg in H2. injection H2 as Hst2 Ht2 Hr2; subst st2 t2 r2.
  split; [simpl; eauto|].
  rewrite !count_app.
  rewrite (count_none summary_event setup_event t0); [|by intros []|done].
  rewrite (count_none summary_event batch_event t1); [|by intros []|done].
  done.
Qed.

End RecognitionResults.

Section Exhaustion.

Context {tensor value scalar : Type}.
Local Abbreviation event := (@event value scalar).
Local Abbreviation locals := (@locals value scalar).
Local Abbreviation config := (@config tensor value scalar).
Local Abbreviation session_world := (@session_world value scalar).

Implicit Types (cfg : config) (w : session_world) (st : locals).

(** The batch loop, with or without a batch processor, keeps the keys
    of the result lists and leaves [other_metrics] alone. *)
Lemma batch_loop_invariant cfg w bs :
  ∀ st st' t r,
    valid_keys cfg ⊆ dom (result_lists st) →
    for_each bs (process_batch cfg w) st = (st', t, r) →
    dom (result_lists st') = dom (result_lists st) ∧
    other_metrics st' = other_metrics st.
Proof.
  induction bs as [|i bs IH]; intros st st' t r Hdom Hloop.
  - by injection Hloop as <- _ _.
  - simpl in Hloop. unfold bind in Hloop.
    rewrite process_batch_run in Hloop by done.
    pose proof (run_batch_locals cfg w i st) as [Hrl Hother].
    destruct (run_batch cfg w i st) as [[st1 t1] [d|e]]; simpl in *.
    + destruct (for_each bs _ _) as [[st2 t2] r2] eqn:Hrest.
      injection Hloop as <- _ _.
      apply IH in Hrest as [Hdom2 Hother2].
      * simpl in *. by rewrite Hdom2, Hother2, dom_appended, Hrl.
      * simpl. by rewrite dom_appended, Hrl.
    + injection Hloop as <- _ _. by rewrite Hrl.
Qed.

(** C7: when the input runs out at batch [j], before the [num_batches]
    batches are done, the [OutOfRangeError] ends the batch loop, is
    caught and logged, and the pass goes on as after a complete loop:
    the aggregation function is called on the lists as the first [j]
    batches left them, its metrics are written to the summary log, and
    the pass returns normally. *)
Theorem exhausted_input_still_aggregates cfg w t0 (j : nat) st_j t_j st' t' metrics :
  setup cfg w tt = (tt, t0, Ok tt) →
  (j < Z.to_nat (num_batches cfg))%nat →
  for_each (seq 0 j) (process_batch cfg w) (initial_locals cfg) = (st_j, t_j, Ok tt) →
  run_batch cfg w j st_j = (st', t', Raise OutOfRangeError) →
  aggregate cfg (result_lists st_j) = Ok metrics →
  run_checkpoint_once cfg w =
  (t0 ++ [QueueRunners_enter] ++ t_j ++ progress j ++ t'
      ++ [Log "Done evaluating -- epoch limit reached";
          Aggregate (result_lists st_j); Global_step]
      ++ write_metrics_trace metrics (global_step w) (summary_dir cfg)
      ++ [Log "# success: %d"; Log "# skipped: %d"; QueueRunners_exit; Session_close],
   Ok tt).
Proof.
  intros Hsetup Hj Hprefix Hexhausted Hmetrics.
  assert (valid_keys cfg ⊆ dom (result_lists (initial_locals cfg))) as Hdom0.
  { simpl. by rewrite dom_gset_to_gmap. }
  destruct (batch_loop_invariant cfg w _ _ _ _ _ Hdom0 Hprefix) as [Hdom Hother].
  pose proof (run_batch_locals cfg w j st_j) as [Hrl' Hother'].
  rewrite Hexhausted in Hrl', Hother'. simpl in Hrl', Hother', Hother.
  assert (for_each (seq 0 (Z.to_nat (num_batches cfg))) (process_batch cfg w)
            (initial_locals cfg)
          = (st', t_j ++ progress j ++ t', Raise OutOfRangeError)) as Hloop.
  { replace (Z.to_nat (num_batches cfg))
      with (j + S (Z.to_nat (num_batches cfg) - S j))%nat by lia.
    rewrite seq_app, for_each_app, Hprefix. simpl. unfold bind.
    rewrite process_batch_run, Hexhausted; [done|].
    by rewrite Hdom. }
  assert (batches_until_exhausted cfg w (initial_locals cfg)
          = (st', t_j ++ progress j ++ t'
                  ++ [Log "Done evaluating -- epoch limit reached"], Ok tt)) as Hbatches.
  { unfold batches_until_exhausted, evaluate_batches, try_except.
    rewrite bind_run, Hloop. simpl. by rewrite <- !app_assoc. }
  pose proof (run_pass_shape cfg w) as Hshape.
  destruct (run_checkpoint_once cfg w) as [t r]. cbn [fst snd] in Hshape.
  destruct Hshape as [t0' e H0|t0' st1 t1 r1 st2 t2 r2 H0 H1 H2]; [congruence|].
  rewrite Hsetup in H0. injection H0 as <-.
  rewrite Hbatches in H1. injection H1 as <- <- <-.
  rewrite aggregate_and_write_run, Hrl', Hmetrics, Hother', Hother in H2.
  injection H2 as _ <- <-. simpl. by rewrite <- !app_assoc.
Qed.

End Exhaustion.


Lemma exhausted_input_still_aggregates_witness :
  (run_checkpoint_once example_config example_runtime).2 = Ok tt ∧
  count summary_event (run_checkpoint_once example_config example_runtime).1 = 3%nat.
Proof.
  erewrite (exhausted_input_still_aggregates example_config example_runtime _ 3);
    cycle 1.
  - vm_compute. reflexivity.
  - vm_compute. lia.
  - vm_compute. reflexivity.
  - vm_compute. reflexivity.
  - vm_compute. reflexivity.
  - split; [reflexivity|]. vm_compute. reflexivity.
Defined.

(** * Properties of the CRNN predictor *)

Section Predictor.

Implicit Types (s f : string) (files : list string).

Lemma string_app_cons c s1 s2 : String c s1 +:+ s2 = String c (s1 +:+ s2).
Proof. reflexivity. Qed.

Lemma string_app_assoc s1 s2 s3 : (s1 +:+ s2) +:+ s3 = s1 +:+ (s2 +:+ s3).
Proof.
  induction s1 as [|c s1 IH]; [done|]. rewrite !string_app_cons. by rewrite IH.
Qed.

Lemma string_app_nil_r s : s +:+ "" = s.
Proof.
  induction s as [|c s IH]; [done|]. rewrite string_app_cons. by rewrite IH.
Qed.

(** Writing a string character by character appends it. *)
Lemma writelines_app f s : writelines f s = f +:+ s.
Proof.
  unfold writelines. revert f. induction s as [|c s IH]; intros f; simpl.
  - by rewrite string_app_nil_r.
  - rewrite IH. by rewrite string_app_assoc.
Qed.




Lemma write_rows_run recognize f files :
  (write_rows recognize f files).1 = f +:+ rows_written recognize files.
Proof.
  revert f. induction files as [|im_fn files IH]; intros f; simpl.
  - by rewrite string_app_nil_r.
  - destruct (recognize im_fn) as [label|e]; simpl.
    + rewrite IH, writelines_app. unfold row. by rewrite !string_app_assoc.
    + by rewrite string_app_nil_r.
Qed.

Lemma predict_main_run top d recognize csv :
  (predict_main top d recognize csv).1
  = open_append csv +:+ title +:+ rows_written recognize (get_images top d).
Proof.
  unfold predict_main. by rewrite write_rows_run, writelines_app, string_app_assoc.
Qed.







(** C10: a run opens the output file for appending: what the file held
    is kept, the header [name,label] is written after it and before the
    rows of the run. A second run on the same file therefore leaves the
    first run's header and rows in place and writes a header of its own
    after them, followed by its rows. *)
Theorem header_is_appended_on_every_run top d recognize csv top2 d2 recognize2 :
  (predict_main top d recognize csv).1
  = open_append csv +:+ "name,label" +:+ CRLF
      +:+ rows_written recognize (get_images top d) ∧
  (predict_main top2 d2 recognize2 (Some (predict_main top d recognize csv).1)).1
  = (open_append csv +:+ "name,label" +:+ CRLF
       +:+ rows_written recognize (get_images top d))
    +:+ "name,label" +:+ CRLF +:+ rows_written recognize2 (get_images top2 d2).
Proof.
  rewrite !predict_main_run. unfold title. simpl open_append.
  by rewrite !string_app_assoc.
Qed.


End Predictor.



(** * Further properties of the evaluation loop *)

Section WriteMetrics.

Context {value scalar : Type}.
Local Abbreviation event := (@event value scalar).
Local Abbreviation M := (@M value scalar).

#[local] Instance key_leb_total : Total (λ a b : string * scalar, String.leb a.1 b.1 : Prop).
Proof.
  intros a b. destruct (String.leb_total a.1 b.1) as [H|H]; rewrite H; [by left|by right].
Qed.

Lemma sorted_items_sorted (metrics : gmap string scalar) :
  Sorted key_le (sorted_items metrics).
Proof. unfold sorted_items. apply (Sorted_merge_sort _). Qed.

Lemma sorted_items_perm (metrics : gmap string scalar) :
  sorted_items metrics ≡ₚ map_to_list metrics.
Proof. unfold sorted_items. apply merge_sort_Permutation. Qed.

Lemma summaries_written_app (t1 t2 : list event) :
  summaries_written (t1 ++ t2) = summaries_written t1 ++ summaries_written t2.
Proof. apply omap_app. Qed.

Lemma summaries_of_write_metrics (metrics : gmap string scalar) step dir :
  summaries_written (write_metrics_trace metrics step dir : list event)
  = (λ kv, (kv.1, kv.2, step)) <$> sorted_items metrics.
Proof.
  unfold write_metrics_trace. rewrite !summaries_written_app.
  change (summaries_written [Log "Writing metrics to tf summary."; FileWriter_open dir])
    with (@nil (string * scalar * Z)).
  change (summaries_written [FileWriter_close; Log "Metrics written to tf summary."])
    with (@nil (string * scalar * Z)).
  rewrite app_nil_r, app_nil_l.
  induction (sorted_items metrics) as [|kv items IH]; [done|].
  change (flat_map ?f (kv :: items)) with (f kv ++ flat_map f items).
  rewrite summaries_written_app, IH. done.
Qed.

(** X1. [write_metrics], the calls of the summary writer being taken
    to return, leaves the caller's state alone; it opens the summary
    writer once, writes one summary per metric, under the metric's name,
    with its value and the given step, in increasing order of the names,
    and closes the writer once. *)
Theorem write_metrics_one_summary_per_metric {St} (metrics : gmap string scalar)
    step dir (s : St) :
  (write_metrics metrics step dir : M St unit) s
  = (s, write_metrics_trace metrics step dir, Ok tt) ∧
  summaries_written (write_metrics_trace metrics step dir : list event)
  = (λ kv, (kv.1, kv.2, step)) <$> sorted_items metrics ∧
  Sorted key_le (sorted_items metrics) ∧
  NoDup (sorted_items metrics).*1 ∧
  (∀ key v, (key, v) ∈ sorted_items metrics ↔ metrics !! key = Some v) ∧
  count is_FileWriter_open (write_metrics_trace metrics step dir : list event) = 1%nat ∧
  count is_FileWriter_close (write_metrics_trace metrics step dir : list event) = 1%nat.
Proof.
  split; [apply write_metrics_run|].
  split; [apply summaries_of_write_metrics|].
  split; [apply sorted_items_sorted|].
  split; [rewrite sorted_items_perm; apply NoDup_fst_map_to_list|].
  split.
  - intros key v. rewrite sorted_items_perm. apply elem_of_map_to_list.
  - unfold write_metrics_trace. rewrite !count_app.
    assert (∀ P : event → bool,
      (∀ key v, P (Add_summary key v step) = false) →
      (∀ fmt, P (Log fmt) = false) →
      count P (flat_map (λ kv : string * scalar,
                 [Add_summary kv.1 kv.2 step; Log "%s: %f"]) (sorted_items metrics))
      = 0%nat) as Hloop.
    { intros P Hadd Hlog.
      induction (sorted_items metrics) as [|kv items IH]; [done|].
      simpl. by rewrite Hadd, Hlog, IH. }
    by rewrite !Hloop.
Qed.

End WriteMetrics.

Section PassOutcomes.

Context {tensor value scalar : Type}.
Local Abbreviation event := (@event value scalar).
Local Abbreviation locals := (@locals value scalar).
Local Abbreviation config := (@config tensor value scalar).
Local Abbreviation session_world := (@session_world value scalar).

Implicit Types (cfg : config) (w : session_world) (st : locals).

(** A pass whose setup raises. *)
Lemma run_checkpoint_once_setup_raises cfg w t0 e :
  setup cfg w tt = (tt, t0, Raise e) →
  run_checkpoint_once cfg w = (t0, Raise e).
Proof. intros Hsetup. unfold run_checkpoint_once, run_pass. by rewrite Hsetup. Qed.

(** A pass whose setup returns, from the outcome of the batches. *)
Lemma run_checkpoint_once_after_setup cfg w t0 st1 t1 r1 :
  setup cfg w tt = (tt, t0, Ok tt) →
  batches_until_exhausted cfg w (initial_locals cfg) = (st1, t1, r1) →
  run_checkpoint_once cfg w =
  (t0 ++ [QueueRunners_enter] ++ t1 ++ (aggregate_and_write cfg w st1).1.2
      ++ [QueueRunners_exit]
      ++ closing (finally_outcome r1 (aggregate_and_write cfg w st1).2),
   finally_outcome r1 (aggregate_and_write cfg w st1).2).
Proof.
  intros Hsetup Hbatches.
  pose proof (run_pass_shape cfg w) as Hshape.
  destruct (run_checkpoint_once cfg w) as [t r]. cbn [fst snd] in Hshape.
  destruct Hshape as [t0' e H0|t0' st1' t1' r1' st2 t2 r2 H0 H1 H2]; [congruence|].
  rewrite Hsetup in H0. injection H0 as <-.
  rewrite Hbatches in H1. injection H1 as <- <- <-.
  by rewrite H2.
Qed.

Lemma initial_locals_keys cfg :
  dom (result_lists (initial_locals cfg)) = valid_keys cfg.
Proof. simpl. apply dom_gset_to_gmap. Qed.

(** The batch loop up to a batch that raises. *)
Lemma batch_loop_stops_at cfg w (j : nat) st_j t_j st' t' e :
  (j < Z.to_nat (num_batches cfg))%nat →
  for_each (seq 0 j) (process_batch cfg w) (initial_locals cfg) = (st_j, t_j, Ok tt) →
  run_batch cfg w j st_j = (st', t', Raise e) →
  for_each (seq 0 (Z.to_nat (num_batches cfg))) (process_batch cfg w) (initial_locals cfg)
  = (st', t_j ++ progress j ++ t', Raise e) ∧
  result_lists st' = result_lists st_j ∧
  other_metrics st' = None.
Proof.
  intros Hj Hprefix Hraises.
  assert (valid_keys cfg ⊆ dom (result_lists (initial_locals cfg))) as Hdom0
    by by rewrite initial_locals_keys.
  destruct (batch_loop_invariant cfg w _ _ _ _ _ Hdom0 Hprefix) as [Hdom Hother].
  pose proof (run_batch_locals cfg w j st_j) as [Hrl' Hother'].
  rewrite Hraises in Hrl', Hother'. simpl in Hrl', Hother', Hother.
  split; [|split; [done|congruence]].
  replace (Z.to_nat (num_batches cfg))
    with (j + S (Z.to_nat (num_batches cfg) - S j))%nat by lia.
  rewrite seq_app, for_each_app, Hprefix. simpl. unfold bind.
  rewrite process_batch_run, Hraises; [done|].
  by rewrite Hdom.
Qed.

(** What the [try] makes of a batch loop that ends with an exception:
    [OutOfRangeError] is caught, anything else goes on to the [finally]
    suite as a pending exception. *)
Lemma batches_until_exhausted_raise cfg w st t e :
  for_each (seq 0 (Z.to_nat (num_batches cfg))) (process_batch cfg w) (initial_locals cfg)
  = (st, t, Raise e) →
  batches_until_exhausted cfg w (initial_locals cfg) =
  if is_OutOfRangeError e
  then (st, t ++ [Log "Done evaluating -- epoch limit reached"], Ok tt)
  else (st, t, Raise e).
Proof.
  intros Hloop. unfold batches_until_exhausted, evaluate_batches, try_except.
  rewrite bind_run, Hloop. by destruct (is_OutOfRangeError e).
Qed.

(** X2. With [save_graph] set and no [save_graph_dir], a pass raises a
    [ValueError] before it does anything: no session is created. *)
Theorem save_graph_needs_a_directory cfg w :
  save_graph cfg = true →
  save_graph_dir cfg = "" →
  run_checkpoint_once cfg w
  = ([], Raise (ValueError "`save_graph_dir` must be defined.")).
Proof.
  intros Hsave Hdir. apply run_checkpoint_once_setup_raises.
  unfold setup. by rewrite Hsave, Hdir.
Qed.

(** X3. When the checkpoint cannot be restored, the pass ends there
    with the exception of [saver.restore]: no batch is run, nothing is
    aggregated or written, the queue runners are not started, and the
    session that was created is not closed. *)
Theorem failed_restore_is_fatal cfg w dir0 dirs e :
  save_graph cfg && String.eqb (save_graph_dir cfg) "" = false →
  restore_fn cfg = None →
  checkpoint_dirs cfg = Some (dir0 :: dirs) →
  saver_restore w (latest_checkpoint w dir0) = Raise e →
  run_checkpoint_once cfg w
  = ([Session_create; Run_initializers; Latest_checkpoint dir0;
      Saver_restore (latest_checkpoint w dir0)],
     Raise e).
Proof.
  intros Hgraph Hrestore Hdirs Hsaver. apply run_checkpoint_once_setup_raises.
  unfold setup. rewrite Hgraph, Hrestore, Hdirs. run_monad. by rewrite Hsaver.
Qed.

(** X4. A batch that raises anything but the two errors the loop
    knows ends the batch loop, yet the [finally] suite still runs: the
    lists of the batches before it are aggregated and the metrics are
    written. Then the exception leaves the pass; the queue runners are
    stopped and the session is not closed. *)
Theorem unexpected_batch_error_still_writes_metrics
    cfg w t0 (j : nat) st_j t_j st' t' e metrics :
  setup cfg w tt = (tt, t0, Ok tt) →
  (j < Z.to_nat (num_batches cfg))%nat →
  for_each (seq 0 j) (process_batch cfg w) (initial_locals cfg) = (st_j, t_j, Ok tt) →
  run_batch cfg w j st_j = (st', t', Raise e) →
  is_OutOfRangeError e = false →
  aggregate cfg (result_lists st_j) = Ok metrics →
  run_checkpoint_once cfg w =
  (t0 ++ [QueueRunners_enter] ++ t_j ++ progress j ++ t'
      ++ [Aggregate (result_lists st_j); Global_step]
      ++ write_metrics_trace metrics (global_step w) (summary_dir cfg)
      ++ [Log "# success: %d"; Log "# skipped: %d"; QueueRunners_exit],
   Raise e).
Proof.
  intros Hsetup Hj Hprefix Hraises He Hmetrics.
  destruct (batch_loop_stops_at cfg w j st_j t_j st' t' e Hj Hprefix Hraises)
    as (Hloop & Hrl & Hother).
  pose proof (batches_until_exhausted_raise cfg w _ _ _ Hloop) as Hbatches.
  rewrite He in Hbatches.
  rewrite (run_checkpoint_once_after_setup cfg w t0 _ _ _ Hsetup Hbatches).
  rewrite aggregate_and_write_run, Hrl, Hmetrics, Hother. simpl.
  by rewrite <- !app_assoc, ?app_nil_r.
Qed.

End PassOutcomes.

Section PassInvariants.

Context {tensor value scalar : Type}.
Local Abbreviation event := (@event value scalar).
Local Abbreviation locals := (@locals value scalar).
Local Abbreviation config := (@config tensor value scalar).
Local Abbreviation session_world := (@session_world value scalar).

Implicit Types (cfg : config) (w : session_world) (st : locals).

(** What comes after the batch loop in the [try] touches neither the
    lists nor the counters. *)
Lemma batches_until_exhausted_locals cfg w st0 :
  result_lists (batches_until_exhausted cfg w st0).1.1
  = result_lists
      (for_each (seq 0 (Z.to_nat (num_batches cfg))) (process_batch cfg w) st0).1.1 ∧
  counts (batches_until_exhausted cfg w st0).1.1
  = counts
      (for_each (seq 0 (Z.to_nat (num_batches cfg))) (process_batch cfg w) st0).1.1.
Proof.
  unfold batches_until_exhausted, evaluate_batches, try_except.
  rewrite bind_run.
  destruct (for_each _ _ st0) as [[st t] [[]|e]]; simpl.
  - destruct (metric_names_to_values cfg) as [names|]; run_monad; simpl; [|done].
    destruct (sess_run_metrics w) as [om|e]; simpl; [done|].
    by destruct (is_OutOfRangeError e).
  - by destruct (is_OutOfRangeError e).
Qed.

(** The mapping a pass hands to the aggregation function is the one the
    batches left. *)
Lemma aggregated_in_pass cfg w rl :
  Aggregate rl ∈ (run_checkpoint_once cfg w).1 →
  rl = result_lists (batches_until_exhausted cfg w (initial_locals cfg)).1.1.
Proof.
  intros Hin.
  destruct (setup cfg w tt) as [[[] t0] [[]|e]] eqn:Hsetup.
  2: { rewrite (run_checkpoint_once_setup_raises cfg w t0 e Hsetup) in Hin.
       pose proof (emits_setup cfg w tt) as H0. rewrite Hsetup in H0.
       by apply (not_elem_of_kind setup_event) in Hin. }
  pose proof (emits_setup cfg w tt) as H0. rewrite Hsetup in H0.
  pose proof (emits_batches cfg w (initial_locals cfg)) as H1.
  destruct (batches_until_exhausted cfg w (initial_locals cfg)) as [[st1 t1] r1] eqn:Hb.
  rewrite (run_checkpoint_once_after_setup cfg w t0 st1 t1 r1 Hsetup Hb) in Hin.
  cbn [fst snd] in *.
  rewrite !elem_of_app in Hin.
  destruct Hin as [Hin|[Hin|[Hin|[Hin|[Hin|Hin]]]]].
  - by apply (not_elem_of_kind setup_event) in Hin.
  - by apply list_elem_of_singleton in Hin.
  - by apply (not_elem_of_kind batch_event) in Hin.
  - rewrite aggregate_and_write_run in Hin.
    destruct (aggregate cfg (result_lists st1)) as [metrics|e]; cbn [fst snd] in Hin.
    + apply elem_of_cons in Hin as [Hin|Hin]; [congruence|]. exfalso.
      pose proof (report_after_aggregation (value:=value)
        (merged_metrics (other_metrics st1) metrics) (global_step w) (summary_dir cfg))
        as Hreport.
      rewrite Forall_forall in Hreport. exact (Hreport _ Hin).
    + apply list_elem_of_singleton in Hin. congruence.
  - by apply list_elem_of_singleton in Hin.
  - unfold closing in Hin. destruct (is_Ok _); [|by apply elem_of_nil in Hin].
    by apply list_elem_of_singleton in Hin.
Qed.

(** X5. Whatever the batches return or raise, with or without a batch
    processor, the mapping handed to the aggregation function has
    exactly the valid keys: the keys of [tensor_dict] that are not
    excluded. Excluded fields, and fields a batch processor returns
    beyond those of [tensor_dict], never reach it. *)
Theorem aggregated_fields_are_the_valid_keys cfg w rl :
  Aggregate rl ∈ (run_checkpoint_once cfg w).1 →
  dom rl = dom (tensor_dict cfg) ∖ list_to_set (keys_to_exclude_from_results cfg).
Proof.
  intros Hin. rewrite (aggregated_in_pass cfg w rl Hin).
  destruct (batches_until_exhausted_locals cfg w (initial_locals cfg)) as [-> _].
  destruct (for_each _ _ (initial_locals cfg)) as [[st t] r] eqn:Hloop.
  assert (valid_keys cfg ⊆ dom (result_lists (initial_locals cfg))) as Hdom0
    by by rewrite initial_locals_keys.
  destruct (batch_loop_invariant cfg w _ _ _ _ _ Hdom0 Hloop) as [Hdom _].
  cbn [fst]. by rewrite Hdom, initial_locals_keys.
Qed.

(** In the default batch loop every call of [sess.run] that returns or
    fails with the error that is caught is counted once. *)
Lemma default_loop_counts cfg w :
  batch_processor cfg = None →
  ∀ bs st st' t r,
    valid_keys cfg ⊆ dom (result_lists st) →
    for_each bs (process_batch cfg w) st = (st', t, r) →
    success (counts st') + skipped (counts st')
    = success (counts st) + skipped (counts st)
      + Z.of_nat (length (batches_run t)) - (if is_Ok r then 0 else 1) ∧
    success (counts st) ≤ success (counts st') ∧
    skipped (counts st) ≤ skipped (counts st').
Proof.
  intros Hdefault. induction bs as [|i bs IH]; intros st st' t r Hdom Hloop.
  - injection Hloop as <- <- <-. simpl. lia.
  - simpl in Hloop. unfold bind in Hloop.
    rewrite process_batch_run, run_batch_default in Hloop by done.
    destruct (sess_run_batch w i) as [d|e].
    + destruct (for_each bs _ _) as [[st2 t2] r2] eqn:Hrest.
      injection Hloop as <- <- <-.
      apply IH in Hrest; [|simpl; by rewrite dom_appended].
      rewrite !batches_run_app, batches_run_progress, !length_app.
      simpl in *. lia.
    + destruct (is_InvalidArgumentError e).
      * destruct (for_each bs _ _) as [[st2 t2] r2] eqn:Hrest.
        injection Hloop as <- <- <-.
        apply IH in Hrest; [|simpl; by rewrite dom_appended].
        rewrite !batches_run_app, batches_run_progress, !length_app.
        simpl in *. lia.
      * injection Hloop as <- <- <-.
        rewrite !batches_run_app, batches_run_progress. simpl. lia.
Qed.

(** X6. In a pass without batch processor the two counters add up to
    the number of batches for which [sess.run] was called, less the one,
    if any, whose exception ended the loop; and neither is negative. *)
Theorem counters_count_the_batches_run cfg w st t r :
  batch_processor cfg = None →
  for_each (seq 0 (Z.to_nat (num_batches cfg))) (process_batch cfg w) (initial_locals cfg)
  = (st, t, r) →
  success (counts st) + skipped (counts st)
  = Z.of_nat (length (batches_run t)) - (if is_Ok r then 0 else 1) ∧
  0 ≤ success (counts st) ∧
  0 ≤ skipped (counts st).
Proof.
  intros Hdefault Hloop.
  assert (valid_keys cfg ⊆ dom (result_lists (initial_locals cfg))) as Hdom0
    by by rewrite initial_locals_keys.
  destruct (default_loop_counts cfg w Hdefault _ _ _ _ _ Hdom0 Hloop) as (H1 & H2 & H3).
  simpl in *. lia.
Qed.

End PassInvariants.

Section SupplementaryMetrics.

Context {tensor value scalar : Type}.
Local Abbreviation event := (@event value scalar).
Local Abbreviation locals := (@locals value scalar).
Local Abbreviation config := (@config tensor value scalar).
Local Abbreviation session_world := (@session_world value scalar).

Implicit Types (cfg : config) (w : session_world) (st : locals).

Lemma emits_batch_loop cfg w bs :
  emits loop_event (for_each bs (process_batch cfg w)).
Proof.
  apply emits_for_each. intros batch. unfold process_batch.
  apply emits_bind; [destruct (_ =? _); emits_auto|]. intros _.
  apply emits_bind.
  - unfold run_batch. destruct (batch_processor cfg) as [processor|].
    + intros st. destruct (processor w batch (counts st)) as [c r]. by repeat constructor.
    + emits_auto.
  - intros result_dict. apply emits_for_each. intros kv.
    destruct (decide _); [|emits_auto]. unfold append_result. emits_auto.
Qed.

Lemma summaries_none (P : event → bool) (t : list event) :
  (∀ key v step, P (Add_summary key v step) = false) →
  Forall (λ e, P e = true) t → summaries_written t = [].
Proof.
  intros HP. induction 1 as [|e t He _ IH]; [done|].
  change (e :: t) with ([e] ++ t). rewrite summaries_written_app, IH.
  destruct e; try done. by rewrite HP in He.
Qed.

(** X7. The supplementary metrics are evaluated only after a batch
    loop that went through all its batches: when the loop is ended by an
    exception, be it the exhaustion of the input, [sess.run] is not
    called for them. *)
Theorem supplementary_metrics_need_a_complete_loop cfg w :
  Sess_run_metrics ∈ (run_checkpoint_once cfg w).1 →
  is_Some (metric_names_to_values cfg) ∧
  ∃ st t,
    for_each (seq 0 (Z.to_nat (num_batches cfg))) (process_batch cfg w)
      (initial_locals cfg) = (st, t, Ok tt).
Proof.
  intros Hin.
  destruct (setup cfg w tt) as [[[] t0] [[]|e]] eqn:Hsetup.
  2: { rewrite (run_checkpoint_once_setup_raises cfg w t0 e Hsetup) in Hin.
       pose proof (emits_setup cfg w tt) as H0. rewrite Hsetup in H0.
       by apply (not_elem_of_kind setup_event) in Hin. }
  pose proof (emits_setup cfg w tt) as H0. rewrite Hsetup in H0.
  pose proof (emits_aggregate_and_write cfg w) as H2.
  pose proof (emits_batch_loop cfg w (seq 0 (Z.to_nat (num_batches cfg)))
                (initial_locals cfg)) as Hloop.
  destruct (batches_until_exhausted cfg w (initial_locals cfg)) as [[st1 t1] r1] eqn:Hb.
  rewrite (run_checkpoint_once_after_setup cfg w t0 st1 t1 r1 Hsetup Hb) in Hin.
  specialize (H2 st1). cbn [fst snd] in *.
  rewrite !elem_of_app in Hin.
  destruct Hin as [Hin|[Hin|[Hin|[Hin|[Hin|Hin]]]]].
  - by apply (not_elem_of_kind setup_event) in Hin.
  - by apply list_elem_of_singleton in Hin.
  - unfold batches_until_exhausted, evaluate_batches, try_except in Hb.
    rewrite bind_run in Hb.
    destruct (for_each _ _ (initial_locals cfg)) as [[st t] [[]|e]].
    + destruct (metric_names_to_values cfg) as [names|]; [by eauto|].
      simpl in Hb. injection Hb as _ <- _.
      rewrite elem_of_app in Hin. destruct Hin as [Hin|Hin].
      * by apply (not_elem_of_kind loop_event) in Hin.
      * by apply list_elem_of_singleton in Hin.
    + exfalso. simpl in Hloop. destruct (is_OutOfRangeError e).
      * simpl in Hb. injection Hb as _ <- _.
        rewrite elem_of_app in Hin. destruct Hin as [Hin|Hin].
        -- by apply (not_elem_of_kind loop_event) in Hin.
        -- by apply list_elem_of_singleton in Hin.
      * injection Hb as _ <- _.
        by apply (not_elem_of_kind loop_event) in Hin.
  - by apply (not_elem_of_kind report_event) in Hin.
  - by apply list_elem_of_singleton in Hin.
  - unfold closing in Hin. destruct (is_Ok _); [|by apply elem_of_nil in Hin].
    by apply list_elem_of_singleton in Hin.
Qed.

(** X8. After a complete batch loop, the supplementary metrics are
    merged into the aggregated ones before anything is written: the
    summaries written are those of the merged mapping, each once, at the
    current global step, and where both mappings have a metric of the
    same name, the supplementary value is the one written. *)
Theorem supplementary_metrics_override cfg w t0 st t names other metrics :
  setup cfg w tt = (tt, t0, Ok tt) →
  for_each (seq 0 (Z.to_nat (num_batches cfg))) (process_batch cfg w) (initial_locals cfg)
  = (st, t, Ok tt) →
  metric_names_to_values cfg = Some names →
  sess_run_metrics w = Ok other →
  aggregate cfg (result_lists st) = Ok metrics →
  (run_checkpoint_once cfg w).2 = Ok tt ∧
  summaries_written (run_checkpoint_once cfg w).1
  = (λ kv, (kv.1, kv.2, global_step w)) <$> sorted_items (other ∪ metrics) ∧
  (∀ key v, (key, v) ∈ sorted_items (other ∪ metrics) ↔
            other !! key = Some v ∨ (other !! key = None ∧ metrics !! key = Some v)).
Proof.
  intros Hsetup Hloop Hnames Hother Hmetrics.
  assert (batches_until_exhausted cfg w (initial_locals cfg)
          = (set_other_metrics (Some other) st,
             t ++ [Sess_run_metrics; Log "Running eval batches done."], Ok tt)) as Hb.
  { unfold batches_until_exhausted, evaluate_batches, try_except.
    rewrite bind_run, Hloop, Hnames. run_monad. by rewrite Hother. }
  rewrite (run_checkpoint_once_after_setup cfg w t0 _ _ _ Hsetup Hb).
  rewrite aggregate_and_write_run. simpl result_lists. rewrite Hmetrics.
  cbn [fst snd finally_outcome closing is_Ok other_metrics set_other_metrics
       merged_metrics].
  pose proof (emits_setup cfg w tt) as H0. rewrite Hsetup in H0.
  pose proof (emits_batch_loop cfg w (seq 0 (Z.to_nat (num_batches cfg)))
                (initial_locals cfg)) as H1. rewrite Hloop in H1.
  cbn [fst snd] in H0, H1.
  split; [done|]. split.
  - rewrite !summaries_written_app.
    rewrite (summaries_none setup_event t0), (summaries_none loop_event t) by done.
    rewrite summaries_of_write_metrics. simpl. by rewrite !app_nil_r.
  - intros key v. rewrite sorted_items_perm, elem_of_map_to_list, lookup_union_Some_raw.
    done.
Qed.

End SupplementaryMetrics.

Section RestoreFn.

Context {tensor value scalar : Type}.
Local Abbreviation event := (@event value scalar).
Local Abbreviation config := (@config tensor value scalar).
Local Abbreviation session_world := (@session_world value scalar).

Implicit Types (cfg : config) (w : session_world).

Lemma setup_with_restore_fn cfg w restore (dirs : option (list string)) :
  restore_fn cfg = Some restore →
  setup (with_checkpoint_dirs dirs cfg) w = setup cfg w ∧
  Forall (λ e : event, reads_checkpoint_dir e = false) (setup cfg w tt).1.2.
Proof.
  intros Hrestore. unfold setup. cbn [with_checkpoint_dirs restore_fn save_graph
    save_graph_dir checkpoint_dirs]. rewrite Hrestore. split; [done|].
  run_monad.
  destruct (save_graph cfg), (String.eqb _ _), (restore w) as [[]|e];
    by repeat constructor.
Qed.

(** X9. A pass whose caller gives a [restore_fn] does not use the
    checkpoint directories: it does the same whatever they are, also
    without any, and it neither looks for a checkpoint nor calls the
    saver. The polling loop, for its part, asks for a checkpoint
    directory all the same and raises a [ValueError] without one. *)
Theorem restore_fn_replaces_the_checkpoint_directories cfg w restore
    (dirs : option (list string)) :
  restore_fn cfg = Some restore →
  run_checkpoint_once (with_checkpoint_dirs dirs cfg) w = run_checkpoint_once cfg w ∧
  Forall (λ e, reads_checkpoint_dir e = false) (run_checkpoint_once cfg w).1 ∧
  (truthy_list dirs = false →
   ∀ secs limit world (fuel : nat),
     ∃ msg, repeated_checkpoint_run (with_checkpoint_dirs dirs cfg) secs limit world fuel
            = ([], Some (Raise (ValueError msg)))).
Proof.
  intros Hrestore.
  destruct (setup_with_restore_fn cfg w restore dirs Hrestore) as [Hsame Hsetup].
  split_and!.
  - unfold run_checkpoint_once, run_pass. rewrite Hsame.
    change (evaluation_block (with_checkpoint_dirs dirs cfg) w)
      with (evaluation_block cfg w).
    change (initial_locals (with_checkpoint_dirs dirs cfg)) with (initial_locals cfg).
    done.
  - pose proof (run_pass_shape cfg w) as Hshape.
    destruct (run_checkpoint_once cfg w) as [t r]. cbn [fst snd] in *.
    destruct Hshape as [t0 e H0|t0 st1 t1 r1 st2 t2 r2 H0 H1 H2].
    + by rewrite H0 in Hsetup.
    + rewrite H0 in Hsetup. cbn [fst snd] in Hsetup.
      pose proof (emits_batches cfg w (initial_locals cfg)) as Hb. rewrite H1 in Hb.
      pose proof (emits_aggregate_and_write cfg w st1) as Hf. rewrite H2 in Hf.
      cbn [fst snd] in Hb, Hf.
      repeat apply Forall_app_2; try done.
      * by repeat constructor.
      * eapply Forall_impl; [exact Hb|]. by intros [].
      * eapply Forall_impl; [exact Hf|]. by intros [].
      * by repeat constructor.
      * unfold closing. destruct (is_Ok _); by repeat constructor.
  - intros Hdirs secs limit world fuel. unfold repeated_checkpoint_run.
    destruct (limit_and limit _); [by eauto|].
    cbn [checkpoint_dirs with_checkpoint_dirs].
    destruct dirs as [[|dir0 dirs]|]; by eauto.
Qed.

End RestoreFn.

Section PollingOutcomes.

Context {tensor value scalar : Type}.
Local Abbreviation event := (@event value scalar).
Local Abbreviation config := (@config tensor value scalar).
Local Abbreviation iteration_world := (@iteration_world value scalar).

Implicit Types (cfg : config) (iw : iteration_world)
  (world : nat → iteration_world) (st : poll_state) (limit : option Z).

(** An iteration whose pass raises: it has started, it is not counted,
    and it does not sleep. *)
Lemma poll_iteration_raises cfg secs limit dir0 iw st st' t e :
  poll_iteration cfg secs limit dir0 iw st = (st', t, Raise e) →
  evaluates (polled_checkpoint iw) (last_evaluated_model_path st) = true ∧
  (run_checkpoint_once cfg (runtime iw)).2 = Raise e ∧
  t = poll_prefix dir0 ++ (run_checkpoint_once cfg (runtime iw)).1 ∧
  iterations_run t = 1%nat ∧ sleeps t = [].
Proof.
  intros Hit.
  destruct (evaluates (polled_checkpoint iw) (last_evaluated_model_path st)) eqn:Hev.
  - rewrite (poll_iteration_evaluates _ _ _ _ _ _ Hev) in Hit.
    pose proof (pass_events cfg (runtime iw)) as Hevents.
    destruct (run_checkpoint_once cfg (runtime iw)) as [tp [[]|e']]; [done|].
    cbn [fst snd] in *. injection Hit as _ <- ->.
    change (Time_time :: Log "Starting evaluation at " :: Latest_checkpoint dir0 :: tp)
      with (poll_prefix dir0 ++ tp : list event).
    split_and!; try done.
    + unfold iterations_run. rewrite count_app.
      by rewrite (count_none is_iteration_start pass_event tp);
        [|apply pass_event_not_start|].
    + rewrite sleeps_app.
      by rewrite (sleeps_none pass_event tp); [|apply pass_event_not_sleep|].
  - by rewrite (poll_iteration_skips _ _ _ _ _ _ Hev) in Hit.
Qed.

(** An iteration that does not raise. *)
Lemma poll_iteration_returns cfg secs limit dir0 iw st st' t b :
  poll_iteration cfg secs limit dir0 iw st = (st', t, Ok b) →
  number_of_evaluations st' = number_of_evaluations st + 1 ∧
  b = (iteration_end secs limit iw (number_of_evaluations st + 1)).2 ∧
  iterations_run t = 1%nat ∧
  sleeps t = sleeps (iteration_end secs limit iw (number_of_evaluations st + 1)).1.
Proof.
  intros Hit.
  destruct (run_checkpoint_once cfg (runtime iw)).2 as [[]|e] eqn:Hpass.
  - destruct (poll_iteration_counts cfg secs limit dir0 iw st Hpass)
      as (st1 & t1 & Hit1 & Hn & Hi & _ & Hs).
    rewrite Hit1 in Hit. by injection Hit as <- <- <-.
  - destruct (evaluates (polled_checkpoint iw) (last_evaluated_model_path st)) eqn:Hev.
    + by rewrite (poll_iteration_evaluates _ _ _ _ _ _ Hev), Hpass in Hit.
    + rewrite (poll_iteration_skips _ _ _ _ _ _ Hev) in Hit.
      injection Hit as <- <- <-. split; [done|]. split; [done|].
      assert (∀ n, iterations_run (iteration_end secs limit iw n).1 = 0%nat) as Hend.
      { intros n. unfold iteration_end, pause.
        destruct (limit_and _ _); [done|]. by destruct (0 <? _). }
      specialize (Hend (number_of_evaluations st + 1)).
      unfold iterations_run in *.
      destruct (truthy_str _); simpl; by rewrite Hend.
Qed.

Lemma sleeps_iteration_end secs limit iw n :
  Forall (λ d, 0 < d) (sleeps (iteration_end secs limit iw n).1 : list Z).
Proof.
  unfold iteration_end. destruct (limit_and _ _); [by constructor|].
  cbn [fst]. change (sleeps (Time_time :: ?t)) with (sleeps t).
  rewrite sleeps_pause. unfold pause.
  destruct (0 <? _) eqn:Hd; repeat constructor. lia.
Qed.

(** Running [k] iterations and then [n] more. *)
Lemma poll_loop_add cfg secs limit world dir0 (k n i : nat) st st1 t1 :
  poll_loop cfg secs limit world dir0 k i st = (st1, t1, None) →
  poll_loop cfg secs limit world dir0 (k + n) i st
  = let '(st2, t2, r) := poll_loop cfg secs limit world dir0 n (i + k) st1 in
    (st2, t1 ++ t2, r).
Proof.
  revert i st st1 t1. induction k as [|k IH]; intros i st st1 t1 Hk.
  - injection Hk as <- <-. rewrite Nat.add_0_r. simpl.
    by destruct (poll_loop _ _ _ _ _ n i st) as [[st2 t2] r].
  - simpl in Hk. change (S k + n)%nat with (S (k + n)). cbn [poll_loop].
    destruct (poll_iteration cfg secs limit dir0 (world i) st) as [[sta ta] [[]|e]];
      [done| |done].
    destruct (poll_loop _ _ _ _ _ k (S i) sta) as [[stb tb] rb] eqn:Hrest.
    injection Hk as <- <- ->.
    rewrite (IH _ _ _ _ Hrest). replace (i + S k)%nat with (S i + k)%nat by lia.
    destruct (poll_loop _ _ _ _ _ n (S i + k) stb) as [[st2 t2] r].
    by rewrite app_assoc.
Qed.

(** X10. When an evaluation pass raises, the polling loop ends with
    that exception: nothing follows the events of the failed pass, no
    sleep and no further poll, whatever the limit. *)
Theorem failed_pass_ends_polling cfg secs limit world dir0 dirs (k fuel : nat) st t e :
  limit_and limit (λ m, m <=? 0) = false →
  checkpoint_dirs cfg = Some (dir0 :: dirs) →
  poll_loop cfg secs limit world dir0 k 0 initial_poll_state = (st, t, None) →
  evaluates (polled_checkpoint (world k)) (last_evaluated_model_path st) = true →
  (run_checkpoint_once cfg (runtime (world k))).2 = Raise e →
  (k < fuel)%nat →
  repeated_checkpoint_run cfg secs limit world fuel
  = (t ++ poll_prefix dir0 ++ (run_checkpoint_once cfg (runtime (world k))).1,
     Some (Raise e)).
Proof.
  intros Hlimit Hdirs Hk Hev Hpass Hfuel.
  unfold repeated_checkpoint_run. rewrite Hlimit, Hdirs.
  replace fuel with (k + S (fuel - S k))%nat by lia.
  rewrite (poll_loop_add _ _ _ _ _ _ _ _ _ _ _ Hk). cbn [poll_loop].
  by rewrite (poll_iteration_evaluates _ _ _ _ _ _ Hev), Hpass.
Qed.

Lemma poll_loop_sleeps cfg secs limit world dir0 (fuel i : nat) st :
  Forall (λ d, 0 < d) (sleeps (poll_loop cfg secs limit world dir0 fuel i st).1.2).
Proof.
  revert i st. induction fuel as [|fuel IH]; intros i st; [by constructor|].
  cbn [poll_loop].
  destruct (poll_iteration cfg secs limit dir0 (world i) st) as [[st1 t1] [b|e]] eqn:Hit.
  - destruct (poll_iteration_returns _ _ _ _ _ _ _ _ _ Hit) as (_ & _ & _ & Hs).
    pose proof (sleeps_iteration_end secs limit (world i) (number_of_evaluations st + 1))
      as Hpos. rewrite <- Hs in Hpos.
    destruct b; [done|].
    specialize (IH (S i) st1).
    destruct (poll_loop _ _ _ _ _ fuel (S i) st1) as [[st2 t2] r].
    cbn [fst snd] in *. rewrite sleeps_app. by apply Forall_app_2.
  - destruct (poll_iteration_raises _ _ _ _ _ _ _ _ _ Hit) as (_ & _ & _ & _ & Hs).
    cbn [fst snd]. rewrite Hs. by constructor.
Qed.

(** X11. The polling loop never sleeps for a duration that is not
    positive, whatever the clock readings, the interval and the outcome
    of the passes. *)
Theorem polling_sleeps_are_positive cfg secs limit world (fuel : nat) :
  Forall (λ d, 0 < d) (sleeps (repeated_checkpoint_run cfg secs limit world fuel).1).
Proof.
  unfold repeated_checkpoint_run.
  destruct (limit_and _ _); [by constructor|].
  destruct (checkpoint_dirs cfg) as [[|dir0 dirs]|]; try by constructor.
  pose proof (poll_loop_sleeps cfg secs limit world dir0 fuel 0 initial_poll_state) as H.
  by destruct (poll_loop _ _ _ _ _ _ _ _) as [[st t] r].
Qed.

Lemma poll_loop_returns cfg secs limit world dir0 (fuel i : nat) st st' t :
  poll_loop cfg secs limit world dir0 fuel i st = (st', t, Some (Ok tt)) →
  0 ≤ number_of_evaluations st →
  (∀ m, limit = Some m → number_of_evaluations st < m) →
  ∃ M, limit = Some M ∧ 0 < M ∧
       Z.of_nat (iterations_run t) = M - number_of_evaluations st.
Proof.
  revert i st st' t.
  induction fuel as [|fuel IH]; intros i st st' t Hloop Hpos Hn; [done|].
  cbn [poll_loop] in Hloop.
  destruct (poll_iteration cfg secs limit dir0 (world i) st) as [[st1 t1] [b|e]] eqn:Hit;
    [|done].
  destruct (poll_iteration_returns _ _ _ _ _ _ _ _ _ Hit) as (Hn1 & Hb & Hi & _).
  destruct b.
  - injection Hloop as _ <-. symmetry in Hb. unfold iteration_end in Hb.
    destruct (limit_and limit _) eqn:Hl; [|done].
    unfold limit_and, truthy_int in Hl. destruct limit as [M|]; [|done].
    exists M. specialize (Hn M eq_refl). split; [done|]. rewrite Hi. lia.
  - destruct (poll_loop _ _ _ _ _ fuel (S i) st1) as [[st2 t2] r] eqn:Hrest.
    injection Hloop as _ <- ->.
    symmetry in Hb. unfold iteration_end in Hb.
    destruct (limit_and limit _) eqn:Hl; [done|].
    destruct (IH _ _ _ _ Hrest) as (M & -> & HM & Hcount); [lia| |].
    { intros m ->. specialize (Hn m eq_refl).
      unfold limit_and, truthy_int in Hl. lia. }
    exists M. split; [done|]. split; [done|].
    unfold iterations_run in *. rewrite count_app. lia.
Qed.

(** X12. The polling loop returns normally only by reaching its
    limit: when a call returns, a positive limit [M] was given and
    exactly [M] iterations have been started. Without a limit, and with
    the limit 0, a call never returns normally. *)
Theorem polling_returns_only_at_the_limit cfg secs limit world (fuel : nat) :
  (repeated_checkpoint_run cfg secs limit world fuel).2 = Some (Ok tt) →
  ∃ M, limit = Some M ∧ 0 < M ∧
       iterations_run (repeated_checkpoint_run cfg secs limit world fuel).1 = Z.to_nat M.
Proof.
  unfold repeated_checkpoint_run.
  destruct (limit_and limit (λ m, m <=? 0)) eqn:Hl; [done|].
  destruct (checkpoint_dirs cfg) as [[|dir0 dirs]|]; try done.
  destruct (poll_loop _ _ _ _ _ fuel 0%nat initial_poll_state) as [[st t] r] eqn:Hloop.
  cbn [fst snd]. intros ->.
  destruct (poll_loop_returns _ _ _ _ _ _ _ _ _ _ Hloop) as (M & -> & HM & Hcount);
    [done| |].
  - intros m ->. unfold limit_and, truthy_int in Hl. simpl. 
    destruct (m =? 0) eqn:H0; simpl in Hl; [|lia].
    (* the limit 0 *)
    exfalso. clear -Hloop H0.
    assert (m = 0) as -> by lia.
    assert (∀ fuel i st st' t', poll_loop cfg secs (Some 0) world dir0 fuel i st
                              ≠ (st', t', Some (Ok tt))) as Hnever.
    { clear. induction fuel as [|fuel IH]; intros i st st' t' Hloop; [done|].
      cbn [poll_loop] in Hloop.
      destruct (poll_iteration cfg secs (Some 0) dir0 (world i) st)
        as [[st1 t1] [b|e]] eqn:Hit; [|done].
      destruct (poll_iteration_returns _ _ _ _ _ _ _ _ _ Hit) as (_ & Hb & _).
      rewrite iteration_end_no_limit in Hb by done. simpl in Hb. subst b.
      destruct (poll_loop _ _ _ _ _ fuel (S i) st1) as [[st2 t2] r] eqn:Hrest.
      injection Hloop as _ _ ->. by eapply IH. }
    by eapply Hnever.
  - exists M. simpl in Hcount. split; [done|]. split; [done|]. lia.
Qed.

Lemma setup_first_directory cfg w dir0 dirs dirs' :
  setup (with_checkpoint_dirs (Some (dir0 :: dirs)) cfg) w
  = setup (with_checkpoint_dirs (Some (dir0 :: dirs')) cfg) w.
Proof. reflexivity. Qed.

Lemma run_checkpoint_once_first_directory cfg w dir0 dirs dirs' :
  run_checkpoint_once (with_checkpoint_dirs (Some (dir0 :: dirs)) cfg) w
  = run_checkpoint_once (with_checkpoint_dirs (Some (dir0 :: dirs')) cfg) w.
Proof. reflexivity. Qed.

Lemma poll_loop_first_directory cfg secs limit world dir dir0 dirs dirs' (fuel i : nat) st :
  poll_loop (with_checkpoint_dirs (Some (dir0 :: dirs)) cfg) secs limit world dir fuel i st
  = poll_loop (with_checkpoint_dirs (Some (dir0 :: dirs')) cfg) secs limit world dir fuel i st.
Proof.
  revert i st. induction fuel as [|fuel IH]; intros i st; [done|].
  cbn [poll_loop].
  change (poll_iteration (with_checkpoint_dirs (Some (dir0 :: dirs)) cfg))
    with (poll_iteration (with_checkpoint_dirs (Some (dir0 :: dirs')) cfg)).
  destruct (poll_iteration _ _ _ _ _ _) as [[st1 t1] [[]|e]]; [done| |done].
  by rewrite IH.
Qed.

(** X13. Of the checkpoint directories only the first is ever read:
    two calls that differ in the further entries of [checkpoint_dirs]
    alone do the same, in a single pass and in the polling loop. *)
Theorem only_the_first_checkpoint_directory_is_read cfg dir0 dirs dirs' :
  (∀ w, run_checkpoint_once (with_checkpoint_dirs (Some (dir0 :: dirs)) cfg) w
        = run_checkpoint_once (with_checkpoint_dirs (Some (dir0 :: dirs')) cfg) w) ∧
  (∀ secs limit world (fuel : nat),
     repeated_checkpoint_run (with_checkpoint_dirs (Some (dir0 :: dirs)) cfg)
       secs limit world fuel
     = repeated_checkpoint_run (with_checkpoint_dirs (Some (dir0 :: dirs')) cfg)
         secs limit world fuel).
Proof.
  split; [intros w; apply run_checkpoint_once_first_directory|].
  intros secs limit world fuel. unfold repeated_checkpoint_run.
  destruct (limit_and _ _); [done|]. cbn [checkpoint_dirs with_checkpoint_dirs].
  by rewrite (poll_loop_first_directory cfg secs limit world dir0 dir0 dirs dirs').
Qed.

End PollingOutcomes.

Section WellFormedResults.

Context {value scalar : Type}.

Implicit Types (rl : gmap string (list value))
  (evaluate_all : list (value * value * value) → result (gmap string scalar)).

Lemma recognition_infos_zip rl (recognition groundtruth : list value) :
  rl !! "recognition_text" = Some recognition →
  rl !! "groundtruth_text" = Some groundtruth →
  ∀ (filenames : list value) (idx : nat),
    (idx + length filenames ≤ length recognition)%nat →
    (idx + length filenames ≤ length groundtruth)%nat →
    recognition_infos rl idx filenames
    = Ok (zip (zip filenames (drop idx recognition)) (drop idx groundtruth)).
Proof.
  intros Hr Hg. induction filenames as [|image_id rest IH]; intros idx Hlr Hlg; [done|].
  simpl in Hlr, Hlg. cbn [recognition_infos].
  unfold mbind, result_bind, getitem, index. rewrite Hr, Hg.
  destruct (lookup_lt_is_Some_2 recognition idx) as [text Htext]; [lia|].
  destruct (lookup_lt_is_Some_2 groundtruth idx) as [gt Hgt]; [lia|].
  rewrite Htext, Hgt, IH by lia.
  rewrite (drop_S _ _ _ Htext), (drop_S _ _ _ Hgt). done.
Qed.

(** X14. On result lists that hold the three expected keys with lists
    of one length, the evaluator is given one triple per image, in the
    order of the lists: the file name, the recognized text and the
    ground truth found at the same index. The outcome is what the
    evaluator makes of them; further keys are not looked at. *)
Theorem well_formed_results_are_evaluated_in_order evaluate_all rl
    (filenames recognition groundtruth : list value) :
  rl !! "filename" = Some filenames →
  rl !! "recognition_text" = Some recognition →
  rl !! "groundtruth_text" = Some groundtruth →
  length recognition = length groundtruth →
  length filenames = length groundtruth →
  evaluate_recognition_results evaluate_all rl
  = evaluate_all (zip (zip filenames recognition) groundtruth).
Proof.
  intros Hf Hr Hg Hlr Hlf. unfold evaluate_recognition_results.
  rewrite bool_decide_eq_true_2; cycle 1.
  { intros key Hkey. apply elem_of_list_to_set in Hkey. apply elem_of_dom.
    destruct (expected_key_cases key Hkey) as [-> | [-> | ->]]; by eauto. }
  assert (check_list_sizes rl (length groundtruth) expected_keys = Ok tt) as Hsizes.
  { unfold expected_keys. cbn [check_list_sizes].
    unfold mbind, result_bind, getitem. rewrite Hg, Hr, Hf.
    by rewrite Hlr, Hlf, Nat.eqb_refl. }
  cbn [negb]. unfold mbind, result_bind, getitem. rewrite Hg, Hf, Hsizes.
  by rewrite (recognition_infos_zip rl recognition groundtruth Hr Hg) by lia.
Qed.

End WellFormedResults.

(** * Properties of the visualization *)

Section NormalizeText.

Implicit Types (c : ascii) (text : string).

Local Ltac each_char c :=
  destruct c as [[] [] [] [] [] [] [] []]; vm_compute; try done; try (intros; done).

Lemma lower_char_alphanumeric c :
  char_in c (digits +:+ ascii_letters) = true →
  char_in (lower_char c) (digits +:+ ascii_lowercase) = true.
Proof. each_char c. Qed.

Lemma lowercase_is_alphanumeric c :
  char_in c (digits +:+ ascii_lowercase) = true →
  char_in c (digits +:+ ascii_letters) = true ∧ lower_char c = c ∧
  Ascii.eqb c slash = false.
Proof. each_char c. Qed.

Lemma normalize_text_cons c text :
  _normalize_text (String c text)
  = if char_in c (digits +:+ ascii_letters)
    then String (lower_char c) (_normalize_text text)
    else _normalize_text text.
Proof.
  unfold _normalize_text. cbn [filter_chars].
  by destruct (char_in c (digits +:+ ascii_letters)).
Qed.

Lemma normalize_text_chars text :
  Forall (λ c, char_in c (digits +:+ ascii_lowercase) = true)
    (String.list_ascii_of_string (_normalize_text text)).
Proof.
  induction text as [|c text IH]; [by constructor|].
  rewrite normalize_text_cons.
  destruct (char_in c (digits +:+ ascii_letters)) eqn:Hc; [|done].
  cbn [String.list_ascii_of_string]. constructor; [|done].
  by apply lower_char_alphanumeric.
Qed.

Lemma normalize_text_fixed text :
  Forall (λ c, char_in c (digits +:+ ascii_lowercase) = true)
    (String.list_ascii_of_string text) →
  _normalize_text text = text ∧ has_slash text = false.
Proof.
  induction text as [|c text IH]; [done|].
  cbn [String.list_ascii_of_string]. intros Hall.
  apply Forall_cons in Hall as [Hc Hall].
  destruct (lowercase_is_alphanumeric c Hc) as (Hkeep & Hlow & Hslash).
  destruct (IH Hall) as [IH1 IH2].
  rewrite normalize_text_cons, Hkeep, Hlow, IH1. split; [done|].
  cbn [has_slash]. by rewrite Hslash, IH2.
Qed.

Lemma normalize_text_app text1 text2 :
  _normalize_text (text1 +:+ text2) = _normalize_text text1 +:+ _normalize_text text2.
Proof.
  induction text1 as [|c text1 IH]; [done|].
  rewrite string_app_cons, !normalize_text_cons, IH.
  by destruct (char_in c (digits +:+ ascii_letters)).
Qed.

(** X15. A normalized text holds digits and lowercase letters only,
    whatever the text was; normalizing leaves such a text as it is, so
    normalizing twice is normalizing once; and the normalized form of a
    text is made, piece by piece, of those of its parts. *)
Theorem normalized_text_is_lowercase_alphanumeric text :
  Forall (λ c, char_in c (digits +:+ ascii_lowercase) = true)
    (String.list_ascii_of_string (_normalize_text text)) ∧
  _normalize_text (_normalize_text text) = _normalize_text text ∧
  (∀ text', Forall (λ c, char_in c (digits +:+ ascii_lowercase) = true)
              (String.list_ascii_of_string text') →
            _normalize_text text' = text') ∧
  (∀ text1 text2, _normalize_text (text1 +:+ text2)
                  = _normalize_text text1 +:+ _normalize_text text2).
Proof.
  split; [apply normalize_text_chars|]. split.
  - apply normalize_text_fixed, normalize_text_chars.
  - split; [intros text'; apply normalize_text_fixed|apply normalize_text_app].
Qed.

End NormalizeText.

Section VisualizeFacts.

Context {array : Type}.
Local Abbreviation recognition_result := (@recognition_result array).
Local Abbreviation vis_world := (@vis_world array).

Implicit Types (w : vis_world) (rd : recognition_result) (tag : string)
  (export_dir : option string) (t : list vis_event).

(** Follows the function call by call, along every way the world can
    answer. *)
Local Ltac vis_step :=
  match goal with
  | |- context [match ?x with _ => _ end] =>
      lazymatch x with
      | context [match _ with _ => _ end] => fail
      | _ => destruct x eqn:?
      end
  end; cbn [app fst snd negb] in *.

Local Ltac vis_unfold :=
  unfold visualize_recognition_results, export, field, vcall, vraise;
  cbv beta iota zeta delta [mbind mret V_bind V_ret];
  cbn [app fst snd].

Lemma saved_paths_app t1 t2 : saved_paths (t1 ++ t2) = saved_paths t1 ++ saved_paths t2.
Proof. apply omap_app. Qed.

Local Ltac vis_solve :=
  unfold saved_paths; cbn [omap list_omap app fst snd];
  rewrite ?elem_of_cons, ?elem_of_nil;
  try (intros p; rewrite ?elem_of_cons, ?elem_of_nil);
  intuition (first [discriminate | congruence | eauto]).

Lemma export_inv w rd tag export_dir gt_text rec_text :
  let run := export w rd tag export_dir gt_text rec_text in
  (Plt_close ∈ run.1 ↔ run.2 = Ok tt) ∧
  (run.2 = Ok tt → saved_paths run.1 ≠ []) ∧
  (∀ p, p ∈ saved_paths run.1 →
        ∃ dir, export_dir = Some dir ∧
          (p = path_join dir (tag +:+ ("_original_" +:+ gt_text +:+ "_" +:+ rec_text) +:+ ".pdf")
           ∨ p = path_join dir (tag +:+ "_rectified" +:+ ".pdf"))).
Proof.
  unfold export, field, vcall, vraise.
  cbv beta iota zeta delta [mbind mret V_bind V_ret]. cbn [app fst snd].
  repeat vis_step; split_and!; vis_solve.
Qed.


(** X16. The figure a call creates is closed only at the very end of
    an export: a call closes it exactly when it returns after having
    saved a file. A call that raises, at any point, and a call that
    returns early leave the figure open. *)
Theorem figure_is_closed_only_after_an_export w rd tag export_dir
    (only_visualize_incorrect : bool) :
  Plt_close ∈ (visualize_recognition_results w rd tag export_dir
                 only_visualize_incorrect).1
  ↔ (visualize_recognition_results w rd tag export_dir only_visualize_incorrect).2
    = Ok tt ∧
    saved_paths (visualize_recognition_results w rd tag export_dir
                   only_visualize_incorrect).1 ≠ [].
Proof.
  vis_unfold.
  repeat vis_step; vis_solve.
Qed.

(** X17. With [only_visualize_incorrect], a recognition whose
    normalized text is that of the ground truth is not exported: the
    call neither looks at nor writes to the file system, and the figure
    it has created is not closed. Texts that differ in case, or in
    characters other than letters and digits, count as equal. *)
Theorem correct_recognition_is_not_exported w rd tag export_dir
    (gt_bytes rec_bytes gt rc : string) :
  groundtruth_text rd = Some gt_bytes →
  decode w gt_bytes = Ok gt →
  recognition_text rd = Some rec_bytes →
  decode w rec_bytes = Ok rc →
  _normalize_text gt = _normalize_text rc →
  Forall (λ e, touches_disk e = false)
    (visualize_recognition_results w rd tag export_dir true).1 ∧
  ¬ Plt_close ∈ (visualize_recognition_results w rd tag export_dir true).1 ∧
  ((visualize_recognition_results w rd tag export_dir true).2 = Ok tt →
   Plt_figure ∈ (visualize_recognition_results w rd tag export_dir true).1).
Proof.
  intros Hgt Hdgt Hrc Hdrc Hequal.
  unfold visualize_recognition_results, field, vcall, vraise.
  cbv beta iota zeta delta [mbind mret V_bind V_ret]. cbn [app fst snd].
  rewrite Hgt, Hrc, Hdgt, Hdrc, Hequal, String.eqb_refl. cbn [andb].
  repeat vis_step; split_and!;
    try (by repeat constructor);
    rewrite ?elem_of_cons, ?elem_of_nil;
    intuition (first [discriminate | congruence | eauto]).
Qed.


End VisualizeFacts.

(** * Further properties of the CRNN predictor *)

Section PredictorFailure.


End PredictorFailure.

(** * The properties at the example inputs *)

Lemma save_graph_needs_a_directory_witness :
  run_checkpoint_once example_config_save_graph example_runtime
  = ([], Raise (ValueError "`save_graph_dir` must be defined.")).
Proof.
  apply (save_graph_needs_a_directory example_config_save_graph example_runtime);
    reflexivity.
Defined.

Lemma failed_restore_is_fatal_witness :
  run_checkpoint_once example_config example_runtime_no_checkpoint
  = ([Session_create; Run_initializers; Latest_checkpoint "train"; Saver_restore None],
     Raise (ValueError "Can't load save_path when it is None.")).
Proof.
  apply (failed_restore_is_fatal example_config example_runtime_no_checkpoint "train" []);
    reflexivity.
Defined.

Lemma unexpected_batch_error_still_writes_metrics_witness :
  (run_checkpoint_once example_config example_runtime_data_loss).2
  = Raise (OtherError "DataLossError") ∧
  summaries_written (run_checkpoint_once example_config example_runtime_data_loss).1
  = [("count", 1, 100)].
Proof.
  erewrite (unexpected_batch_error_still_writes_metrics example_config
              example_runtime_data_loss _ 2);
    cycle 1.
  - vm_compute. reflexivity.
  - vm_compute. lia.
  - vm_compute. reflexivity.
  - vm_compute. reflexivity.
  - reflexivity.
  - vm_compute. reflexivity.
  - split; [reflexivity|]. vm_compute. reflexivity.
Defined.

Lemma aggregated_fields_are_the_valid_keys_witness :
  Aggregate example_pass_result_lists
    ∈ (run_checkpoint_once example_config example_runtime).1 ∧
  dom example_pass_result_lists
  = dom (tensor_dict example_config)
    ∖ list_to_set (keys_to_exclude_from_results example_config).
Proof.
  assert (Aggregate example_pass_result_lists
            ∈ (run_checkpoint_once example_config example_runtime).1) as Hin.
  { apply list_elem_of_In. vm_compute. tauto. }
  split; [exact Hin|].
  exact (aggregated_fields_are_the_valid_keys example_config example_runtime
           example_pass_result_lists Hin).
Defined.

Lemma counters_count_the_batches_run_witness :
  success (counts (for_each (seq 0 5) (process_batch example_config example_runtime)
                     (initial_locals example_config)).1.1) = 2 ∧
  skipped (counts (for_each (seq 0 5) (process_batch example_config example_runtime)
                     (initial_locals example_config)).1.1) = 1 ∧
  batches_run (for_each (seq 0 5) (process_batch example_config example_runtime)
                 (initial_locals example_config)).1.2 = [0; 1; 2; 3]%nat ∧
  2 + 1 = Z.of_nat 4 - 1.
Proof.
  split; [vm_compute; reflexivity|]. split; [vm_compute; reflexivity|].
  split; [vm_compute; reflexivity|].
  destruct (counters_count_the_batches_run example_config example_runtime
              {| result_lists := example_pass_result_lists;
                 counts := {| skipped := 1; success := 2 |};
                 other_metrics := None |}
              [Sess_run_batch 0; Sess_run_batch 1; Log "Skipping image";
               Sess_run_batch 2; Sess_run_batch 3]
              (Raise OutOfRangeError)) as (Hsum & _ & _).
  - reflexivity.
  - vm_compute. reflexivity.
  - exact Hsum.
Defined.

Lemma supplementary_metrics_need_a_complete_loop_witness :
  Sess_run_metrics
    ∈ (run_checkpoint_once example_config_with_metrics example_runtime_with_metrics).1 ∧
  is_Some (metric_names_to_values example_config_with_metrics).
Proof.
  assert (Sess_run_metrics
            ∈ (run_checkpoint_once example_config_with_metrics
                 example_runtime_with_metrics).1) as Hin.
  { apply list_elem_of_In. vm_compute. tauto. }
  split; [exact Hin|].
  exact (proj1 (supplementary_metrics_need_a_complete_loop example_config_with_metrics
                  example_runtime_with_metrics Hin)).
Defined.

Lemma supplementary_metrics_override_witness :
  (run_checkpoint_once example_config_with_metrics example_runtime_with_metrics).2 = Ok tt ∧
  summaries_written
    (run_checkpoint_once example_config_with_metrics example_runtime_with_metrics).1
  = [("count", 1000, 100); ("loss", 7, 100)].
Proof.
  destruct (supplementary_metrics_override example_config_with_metrics
              example_runtime_with_metrics
              [Session_create; Run_initializers; Latest_checkpoint "train";
               Saver_restore (Some "model.ckpt-100")]
              (for_each (seq 0 5)
                 (process_batch example_config_with_metrics example_runtime_with_metrics)
                 (initial_locals example_config_with_metrics)).1.1
              (for_each (seq 0 5)
                 (process_batch example_config_with_metrics example_runtime_with_metrics)
                 (initial_locals example_config_with_metrics)).1.2
              {[ "count" := tt; "loss" := tt ]}
              {[ "count" := 1000; "loss" := 7 ]}
              {[ "count" := 4 ]}) as (Hok & Hwritten & _).
  - reflexivity.
  - vm_compute. reflexivity.
  - reflexivity.
  - reflexivity.
  - vm_compute. reflexivity.
  - split; [exact Hok|]. rewrite Hwritten. vm_compute. reflexivity.
Defined.

Lemma failed_pass_ends_polling_witness :
  (repeated_checkpoint_run example_config 120 None example_world_failing 10).2
  = Some (Raise (ValueError "Can't load save_path when it is None.")) ∧
  iterations_run (repeated_checkpoint_run example_config 120 None example_world_failing 10).1
  = 4%nat.
Proof.
  erewrite (failed_pass_ends_polling example_config 120 None example_world_failing
              "train" [] 3 10);
    cycle 1.
  - reflexivity.
  - reflexivity.
  - vm_compute. reflexivity.
  - vm_compute. reflexivity.
  - vm_compute. reflexivity.
  - lia.
  - split; [reflexivity|]. vm_compute. reflexivity.
Defined.

Lemma polling_returns_only_at_the_limit_witness :
  ∃ M, Some 3 = Some M ∧ 0 < M ∧
       iterations_run (repeated_checkpoint_run example_config 120 (Some 3) example_world 10).1
       = Z.to_nat M.
Proof.
  apply (polling_returns_only_at_the_limit example_config 120 (Some 3) example_world 10).
  vm_compute. reflexivity.
Defined.

Lemma well_formed_results_are_evaluated_in_order_witness :
  evaluate_recognition_results count_images example_result_lists
  = count_images [("a.png", "cat", "cat"); ("c.png", "cat", "bird")].
Proof.
  apply (well_formed_results_are_evaluated_in_order count_images example_result_lists
           ["a.png"; "c.png"] ["cat"; "cat"] ["cat"; "bird"]);
    reflexivity.
Defined.


Lemma correct_recognition_is_not_exported_witness :
  _normalize_text "Hello, World!" = "helloworld" ∧
  (visualize_recognition_results example_vis_world example_recognition_result "img7"
     (Some "vis") true).2 = Ok tt ∧
  Forall (λ e, touches_disk e = false)
    (visualize_recognition_results example_vis_world example_recognition_result "img7"
       (Some "vis") true).1.
Proof.
  split; [vm_compute; reflexivity|]. split; [vm_compute; reflexivity|].
  apply (correct_recognition_is_not_exported example_vis_world example_recognition_result
           "img7" (Some "vis") "Hello, World!" "helloworld" "Hello, World!" "helloworld");
    reflexivity.
Defined.


Lemma restore_fn_replaces_the_checkpoint_directories_witness :
  run_checkpoint_once (with_checkpoint_dirs (Some ["train"]) example_config_restore_fn)
    example_runtime
  = run_checkpoint_once example_config_restore_fn example_runtime ∧
  (run_checkpoint_once example_config_restore_fn example_runtime).2 = Ok tt.
Proof.
  split; [|vm_compute; reflexivity].
  apply (restore_fn_replaces_the_checkpoint_directories example_config_restore_fn
           example_runtime (λ _, Ok tt) (Some ["train"])).
  reflexivity.
Defined.
